(** * Mapped strings of quarto-cli: offsets through substrings

    A shallow embedding of [src/core/lib/text.ts] and
    [src/core/lib/mapped-text.ts], with the properties of their
    offset maps.

    Conventions of the embedding:
    - a JavaScript string is a [string], a code unit an [ascii] (the
      code looks at no character but carriage return and line feed);
      its [length] is read as a [Z];
    - an offset (a JavaScript number holding an integer) is a [Z];
    - [undefined] as the result of a map is [None];
    - a call that can throw returns an [outcome]; reading a property of
      [undefined] throws [TypeError]. *)

From Stdlib Require Import ZArith List String Ascii Bool Lia Sorted.
Import ListNotations.

Local Open Scope string_scope.
Local Open Scope Z_scope.

(** ** What the code relies on from JavaScript *)

Module JS.

Inductive error : Type :=
| TypeError
| Error (message : string).

Inductive outcome (A : Type) : Type :=
| Ret (a : A)
| Throw (e : error).

Arguments Ret {A} a.
Arguments Throw {A} e.

Definition bind {A B : Type} (m : outcome A) (k : A -> outcome B) : outcome B :=
  match m with
  | Ret a => k a
  | Throw e => Throw e
  end.

(** [s.length] *)
Definition strlen (s : string) : Z := Z.of_nat (String.length s).

(** [array[ix]]: [None] is JavaScript's [undefined], also for [ix = -1]. *)
Definition elemAt {T : Type} (array : list T) (ix : Z) : option T :=
  if ix <? 0 then None else nth_error array (Z.to_nat ix).

(** [array.length] *)
Definition arrayLength {T : Type} (array : list T) : Z :=
  Z.of_nat (List.length array).

(** The clamping of an argument of [substring] into [0, len]. *)
Definition clamp (len x : Z) : Z := Z.min (Z.max x 0) len.

(** [s.substring(start, end)]: both arguments are clamped into
    [0, s.length] and swapped when out of order. *)
Definition substring (s : string) (start end_ : Z) : string :=
  let len := strlen s in
  let intStart := clamp len start in
  let intEnd := clamp len end_ in
  let from := Z.min intStart intEnd in
  let to := Z.max intStart intEnd in
  String.substring (Z.to_nat from) (Z.to_nat (to - from)) s.

(** [list.join("")], and ["".concat(...list)] *)
Definition join (list : list string) : string := String.concat "" list.

End JS.

Import JS.

Notation "x <- m ;; k" := (bind m (fun x => k))
  (at level 61, m at next level, right associativity).

(** ** binary-search.ts *)

Module BinarySearch.

(** Modelled from the spec: the scan behind [glb] below, which keeps
    in [best] the answer for the items before position [i]. *)
Fixpoint glbFrom {T U : Type} (compare : U -> T -> Z) (value : U)
         (array : list T) (i best : Z) : Z :=
  match array with
  | [] => best
  | item :: rest =>
      glbFrom compare value rest (i + 1)
              (if 0 <=? compare value item then i else best)
  end.

(** Modelled from the spec: [glb] of [binary-search.ts], which both
    source files import and which is not among the sources.  Section 4.1:
    "return the largest index i such that key(items[i]) <= query, or a
    sentinel none if query is smaller than every key".  The callers
    test the sentinel with [ix < 0]; it is [-1] here.  [compare value
    item] is the query key minus the key of the item, as in the
    callers' [(a, b) => a.offset - b.offset]. *)
Definition glb {T U : Type} (array : list T) (value : U)
           (compare : U -> T -> Z) : Z :=
  glbFrom compare value array 0 (-1).

(** The comparison [glb] uses when the caller passes none: numbers by
    difference. *)
Definition defaultCompare (a b : Z) : Z := a - b.

End BinarySearch.

Import BinarySearch.

(** ** text.ts *)

Module Text.

Definition CR : ascii := ascii_of_nat 13.
Definition LF : ascii := ascii_of_nat 10.

(** [text.matchAll(/\r?\n/g)], each match as its [index] and the
    length of [m[0]].  [index] is the offset of the first character of
    [text] within the whole string. *)
Fixpoint matchAllNewlines (text : string) (index : Z) : list (Z * Z) :=
  match text with
  | EmptyString => []
  | String c rest =>
      if Ascii.eqb c LF then (index, 1) :: matchAllNewlines rest (index + 1)
      else
        match rest with
        | String c' rest' =>
            if Ascii.eqb c CR && Ascii.eqb c' LF
            then (index, 2) :: matchAllNewlines rest' (index + 2)
            else matchAllNewlines rest (index + 1)
        | EmptyString => []
        end
  end.

(** The table [lineOffsets] that [lineNumbers] builds. *)
Definition lineOffsets (text : string) : list Z :=
  [0] ++ List.map (fun m => snd m + fst m) (matchAllNewlines text 0)
      ++ [strlen text].

(** The object [lineNumbers] returns; [column] is [None] for [NaN]
    ([offset - undefined]). *)
Record LineColumn : Type := {
  line : Z;
  column : option Z
}.

Definition lineNumbers (text : string) (offset : Z) : LineColumn :=
  let startIndex := glb (lineOffsets text) offset defaultCompare in
  {| line := startIndex;
     column := match elemAt (lineOffsets text) startIndex with
               | Some lineStart => Some (offset - lineStart)
               | None => None
               end |}.

(** [text.split(/\r?\n/)] given the matches of the pattern: the
    substrings of [text] from [p] to the next match, then from its end
    on, and at last to the end of [text]. *)
Fixpoint splitAt (text : string) (p : Z) (matches : list (Z * Z))
  : list string :=
  match matches with
  | [] => [substring text p (strlen text)]
  | m :: rest => substring text p (fst m) :: splitAt text (fst m + snd m) rest
  end.

Definition lines (text : string) : list string :=
  splitAt text 0 (matchAllNewlines text 0).

(** [list.join("\n")] *)
Definition joinLines (list : list string) : string :=
  String.concat (String LF "") list.

Definition normalizeNewlines (text : string) : string :=
  joinLines (lines text).

End Text.

Import Text.

(** ** mapped-text.ts *)

Module MappedText.

(** [Range] of [ranged-text.ts]: the half-open [start, end) of a piece
    in its source. *)
Record Range : Type := {
  start : Z;
  end_ : Z
}.

Record MappedString : Type := {
  value : string;
  originalString : string;
  map : Z -> outcome (option Z);
  mapClosest : Z -> outcome (option Z)
}.

(** [StringChunk = string | Range] *)
Inductive StringChunk : Type :=
| Literal (piece : string)
| FromRange (piece : Range).

Record OffsetInfo : Type := {
  fromSource : bool;
  length : Z;
  offset : Z;
  range : option Range
}.

(** The callback of [pieces.map] in the branch for a source that is a
    string: one entry of [offsetInfo] and one of [resultList] for the
    piece, at the running [offset]. *)
Definition resolvePiece (source : string) (offset : Z) (piece : StringChunk)
  : OffsetInfo * string :=
  match piece with
  | Literal piece =>
      ({| fromSource := false; length := strlen piece; offset := offset;
          range := None |}, piece)
  | FromRange piece =>
      let resultPiece := substring source (start piece) (end_ piece) in
      ({| fromSource := true; length := strlen resultPiece; offset := offset;
          range := Some {| start := start piece; end_ := end_ piece |} |},
       resultPiece)
  end.

(** [pieces.map(...)] with its two side effects, the pushes onto
    [offsetInfo] and the updates of [offset], threaded through. *)
Fixpoint resolvePieces (source : string) (offset : Z) (pieces : list StringChunk)
  : list OffsetInfo * list string :=
  match pieces with
  | [] => ([], [])
  | piece :: rest =>
      let (info, resultPiece) := resolvePiece source offset piece in
      let (offsetInfo, resultList) :=
        resolvePieces source (offset + length info) rest in
      (info :: offsetInfo, resultPiece :: resultList)
  end.

(** The comparison both maps hand to [glb]; the query object
    [{ offset: targetOffset }] is its number. *)
Definition compareOffset (a : Z) (b : OffsetInfo) : Z := a - offset b.

(** The inner function [map] over the table [offsetInfo]. *)
Definition mapOver (offsetInfo : list OffsetInfo) (targetOffset : Z)
  : outcome (option Z) :=
  let ix := glb offsetInfo targetOffset compareOffset in
  if ix <? 0 then Ret None
  else
    match elemAt offsetInfo ix with
    | None => Throw TypeError
    | Some info =>
        if negb (fromSource info) then Ret None
        else
          let localOffset := targetOffset - offset info in
          if localOffset >=? length info then Ret None
          else
            match range info with
            | None => Throw TypeError
            | Some r => Ret (Some (start r + localOffset))
            end
    end.

(** The [while (ix >= 0)] loop of [mapClosest], entered with
    [ix = n - 1], and the test on [smallestSourceInfo] after it. *)
Fixpoint mapClosestLoop (offsetInfo : list OffsetInfo) (targetOffset firstIx : Z)
         (smallestSourceInfo : option OffsetInfo) (n : nat)
  : outcome (option Z) :=
  match n with
  | O =>
      match smallestSourceInfo with
      | None => Ret None
      | Some info =>
          match range info with
          | None => Throw TypeError
          | Some r => Ret (Some (start r))
          end
      end
  | S n' =>
      let ix := Z.of_nat n' in
      match elemAt offsetInfo ix with
      | None => Throw TypeError
      | Some info =>
          if negb (fromSource info)
          then mapClosestLoop offsetInfo targetOffset firstIx smallestSourceInfo n'
          else
            match range info with
            | None => Throw TypeError
            | Some r =>
                let localOffset := targetOffset - offset info in
                if ix =? firstIx
                then
                  if localOffset <? length info
                  then Ret (Some (start r + localOffset))
                  else Ret (Some (end_ r - 1))
                else Ret (Some (end_ r - 1))
            end
      end
  end.

(** The inner function [mapClosest] over the table [offsetInfo]. *)
Definition mapClosestOver (offsetInfo : list OffsetInfo) (targetOffset : Z)
  : outcome (option Z) :=
  if (arrayLength offsetInfo =? 0) || (targetOffset <? 0) then Ret None
  else
    let firstIx := glb offsetInfo targetOffset compareOffset in
    mapClosestLoop offsetInfo targetOffset firstIx None (Z.to_nat (firstIx + 1)).

(** [mappedString] on a source that is a string. *)
Definition mappedStringOfText (source : string) (pieces : list StringChunk)
  : MappedString :=
  let (offsetInfo, resultList) := resolvePieces source 0 pieces in
  {| value := join resultList;
     originalString := source;
     map := mapOver offsetInfo;
     mapClosest := mapClosestOver offsetInfo |}.

(** [composeMap] and [composeMapClosest]: [next] first, then
    [previous] on a defined result. *)
Definition compose (previous next : Z -> outcome (option Z)) (offset : Z)
  : outcome (option Z) :=
  v <- next offset ;;
  match v with
  | None => Ret None
  | Some v => previous v
  end.

(** [mappedString(source, pieces)].  The call it makes on itself in the
    second branch is on a string, so it is the first branch. *)
Definition mappedString (source : string + MappedString)
           (pieces : list StringChunk) : MappedString :=
  match source with
  | inl source => mappedStringOfText source pieces
  | inr source =>
      let next := mappedStringOfText (value source) pieces in
      {| value := value next;
         originalString := originalString source;
         map := compose (map source) (map next);
         mapClosest := compose (mapClosest source) (mapClosest next) |}
  end.

Definition asMappedString (str : string) : MappedString :=
  {| value := str;
     originalString := str;
     map := fun x => Ret (Some x);
     mapClosest := fun x => Ret (Some x) |}.

(** The table [offsets] of [mappedConcat]: [currentOffset] after each
    element. *)
Fixpoint cumulativeOffsets (currentOffset : Z) (strings : list MappedString)
  : list Z :=
  match strings with
  | [] => []
  | s :: rest =>
      let currentOffset := currentOffset + strlen (value s) in
      currentOffset :: cumulativeOffsets currentOffset rest
  end.

(** The body shared by the [map] and [mapClosest] of [mappedConcat];
    [select] is the field of the element that is called.  [offsets] has
    one entry for each element of [strings], so [offsets[ix]] is
    [undefined] only where [strings[ix]] is, and there the property
    access on [strings[ix]] throws first. *)
Definition routed (strings : list MappedString) (offsets : list Z)
           (valueLength : Z) (select : MappedString -> Z -> outcome (option Z))
           (offset : Z) : outcome (option Z) :=
  if (offset <? 0) || (offset >=? valueLength) then Ret None
  else
    let ix := glb offsets offset defaultCompare in
    match elemAt strings ix, elemAt offsets ix with
    | Some s, Some o => select s (offset - o)
    | _, _ => Throw TypeError
    end.

Definition mappedConcat (strings : list MappedString) : outcome MappedString :=
  match strings with
  | [] => Throw (Error "strings must be non-empty")
  | first :: _ =>
      let offsets := cumulativeOffsets 0 strings in
      let value' := join (List.map value strings) in
      Ret {| value := value';
             originalString := originalString first;
             map := routed strings offsets (strlen value') map;
             mapClosest := routed strings offsets (strlen value') mapClosest |}
  end.

Definition mappedLineNumbers (text : MappedString) (offset : Z)
  : outcome LineColumn :=
  let f := lineNumbers (originalString text) in
  n <- mapClosest text offset ;;
  match n with
  | None => Throw (Error "Internal Error: bad offset in mappedLineNumbers")
  | Some n => Ret (f n)
  end.

End MappedText.

(** ** command/serve/watch.ts *)

Module Watch.

(** [new Uint8Array(length)]: [length] zero bytes. *)
Definition newUint8Array (length : Z) : list Byte.byte :=
  repeat Byte.x00 (Z.to_nat length).

(** [target.set(source, offset)], which writes [source] over [target]
    from [offset] on; [None] is the [RangeError] of a source that does
    not fit. *)
Definition set (target source : list Byte.byte) (offset : Z)
  : option (list Byte.byte) :=
  if (offset <? 0) || (arrayLength target <? offset + arrayLength source)
  then None
  else Some (firstn (Z.to_nat offset) target ++ source
               ++ skipn (Z.to_nat (offset + arrayLength source)) target)%list.

(** [injectClient] of the watcher that [watchProject] returns.  [watch]
    and [port] are the fields of [options] it reads, and
    [encodedClientScript port] stands for
    [new TextEncoder().encode(watchClientScript(port))], whose constant
    [kLocalhost] is not among the sources. *)
Definition injectClient (encodedClientScript : Z -> list Byte.byte)
           (watch : bool) (port : Z) (file : list Byte.byte)
  : option (list Byte.byte) :=
  if watch then
    let scriptContents := encodedClientScript port in
    let fileWithScript :=
      newUint8Array (arrayLength file + arrayLength scriptContents) in
    match set fileWithScript file 0 with
    | None => None
    | Some fileWithScript =>
        set fileWithScript scriptContents (arrayLength file)
    end
  else Some file.

End Watch.

Import MappedText.

(** * Vocabulary of the statements *)

(** The sum of the lengths of a list of strings. *)
Definition totalLength (list : list string) : Z :=
  fold_right (fun s acc => strlen s + acc) 0 list.

(** The [offsetInfo] and the [resultList] that [mappedString] builds
    over a string source. *)
Definition segments (source : string) (pieces : list StringChunk)
  : list OffsetInfo :=
  fst (resolvePieces source 0 pieces).

Definition resultList (source : string) (pieces : list StringChunk)
  : list string :=
  snd (resolvePieces source 0 pieces).

(** The text a piece stands for. *)
Definition resolvedText (source : string) (piece : StringChunk) : string :=
  match piece with
  | Literal piece => piece
  | FromRange piece => substring source (start piece) (end_ piece)
  end.

(** A segment descriptor records its piece. *)
Definition describes (source : string) (piece : StringChunk) (info : OffsetInfo)
  : Prop :=
  length info = strlen (resolvedText source piece) /\
  match piece with
  | Literal _ => fromSource info = false /\ range info = None
  | FromRange r => fromSource info = true /\ range info = Some r
  end.

(** Segments start where the one before ends, the first at [from];
    source-derived ones carry their range. *)
Fixpoint contiguous (from : Z) (table : list OffsetInfo) : Prop :=
  match table with
  | [] => True
  | info :: rest =>
      offset info = from /\ 0 <= length info /\
      (fromSource info = true -> exists r, range info = Some r) /\
      contiguous (from + length info) rest
  end.

Fixpoint tableEnd (from : Z) (table : list OffsetInfo) : Z :=
  match table with
  | [] => from
  | info :: rest => tableEnd (from + length info) rest
  end.

(** A piece for the range [start, end) of the source. *)
Definition rangePiece (start end_ : Z) : StringChunk :=
  FromRange {| start := start; end_ := end_ |}.

(** The piece that copies the whole of a text. *)
Definition fullRange (text : string) : StringChunk :=
  rangePiece 0 (strlen text).

(** The text the pieces of [mappedString] are cut from: the source
    when it is a string, its [value] otherwise. *)
Definition sourceText (source : string + MappedString) : string :=
  match source with
  | inl source => source
  | inr source => value source
  end.

Definition isLiteral (piece : StringChunk) : bool :=
  match piece with
  | Literal _ => true
  | FromRange _ => false
  end.

(** The mapped strings that the three constructors of the library
    produce. *)
Inductive Produced : MappedString -> Prop :=
| Produced_asMappedString (str : string) :
    Produced (asMappedString str)
| Produced_mappedString_text (source : string) (pieces : list StringChunk) :
    Produced (mappedString (inl source) pieces)
| Produced_mappedString_mapped (source : MappedString)
                               (pieces : list StringChunk) :
    Produced source ->
    Produced (mappedString (inr source) pieces)
| Produced_mappedConcat (strings : list MappedString) (result : MappedString) :
    (forall s, In s strings -> Produced s) ->
    mappedConcat strings = Ret result ->
    Produced result.

(** The offsets just after each line feed of [text], whose first
    character is at offset [index]. *)
Fixpoint lineFeedEnds (text : string) (index : Z) : list Z :=
  match text with
  | EmptyString => []
  | String c rest =>
      if Ascii.eqb c LF then (index + 1) :: lineFeedEnds rest (index + 1)
      else lineFeedEnds rest (index + 1)
  end.

(** ** Vocabulary of the further properties *)

(** The character of [s] at offset [o], if there is one. *)
Definition charAt (s : string) (o : Z) : option ascii :=
  if o <? 0 then None else String.get (Z.to_nat o) s.

(** A range piece that starts at or after 0 and does not end before it
    starts. *)
Definition orderedPiece (piece : StringChunk) : bool :=
  match piece with
  | Literal _ => true
  | FromRange r => (0 <=? start r) && (start r <=? end_ r)
  end.

(** A range piece that is not empty and lies within [source]. *)
Definition inBoundsPiece (source : string) (piece : StringChunk) : bool :=
  match piece with
  | Literal _ => true
  | FromRange r =>
      (0 <=? start r) && (start r <? end_ r) && (end_ r <=? strlen source)
  end.

(** Mapped strings built from texts by [asMappedString] and by
    [mappedString] with ordered pieces, to any depth. *)
Inductive Derived : MappedString -> Prop :=
| Derived_asMappedString (str : string) :
    Derived (asMappedString str)
| Derived_text (source : string) (pieces : list StringChunk) :
    forallb orderedPiece pieces = true ->
    Derived (mappedString (inl source) pieces)
| Derived_mapped (source : MappedString) (pieces : list StringChunk) :
    Derived source ->
    forallb orderedPiece pieces = true ->
    Derived (mappedString (inr source) pieces).

(** Whether a carriage return is followed at once by a line feed
    somewhere in [text]. *)
Fixpoint containsCRLF (text : string) : bool :=
  match text with
  | EmptyString => false
  | String c rest =>
      match rest with
      | String c' _ => Ascii.eqb c CR && Ascii.eqb c' LF
      | EmptyString => false
      end || containsCRLF rest
  end.

(** Whether [text] has a line feed. *)
Fixpoint containsLF (text : string) : bool :=
  match text with
  | EmptyString => false
  | String c rest => Ascii.eqb c LF || containsLF rest
  end.

(** The lines of [text] read character by character, [piece] being the
    line under way. *)
Fixpoint splitFrom (text : string) (piece : string) : list string :=
  match text with
  | EmptyString => [piece]
  | String c rest =>
      if Ascii.eqb c LF then piece :: splitFrom rest ""
      else
        match rest with
        | String c' rest' =>
            if Ascii.eqb c CR && Ascii.eqb c' LF
            then piece :: splitFrom rest' ""
            else splitFrom rest (piece ++ String c "")
        | EmptyString => [(piece ++ String c "")%string]
        end
  end.

(** Matches that follow one another from [p] on and end by [upper],
    none longer than two characters. *)
Fixpoint inOrder (p : Z) (matches : list (Z * Z)) (upper : Z) : Prop :=
  match matches with
  | [] => p <= upper
  | m :: rest =>
      p <= fst m /\ 1 <= snd m <= 2 /\ inOrder (fst m + snd m) rest upper
  end.

(** * Properties *)

(** ** Arrays and the search *)

Section ArrayFacts.

Context {T : Type}.

Lemma elemAt_of_nat (array : list T) (n : nat) :
  elemAt array (Z.of_nat n) = nth_error array n.
Proof.
  unfold elemAt.
  destruct (Z.of_nat n <? 0) eqn:E.
  - apply Z.ltb_lt in E. lia.
  - now rewrite Nat2Z.id.
Qed.

Lemma elemAt_bounds (array : list T) (ix : Z) (x : T) :
  elemAt array ix = Some x -> 0 <= ix < arrayLength array.
Proof.
  unfold elemAt, arrayLength.
  destruct (ix <? 0) eqn:E; [discriminate|].
  apply Z.ltb_ge in E. intros H.
  assert (Z.to_nat ix < List.length array)%nat
    by (apply nth_error_Some; congruence).
  lia.
Qed.

Lemma elemAt_in_range (array : list T) (ix : Z) :
  0 <= ix < arrayLength array -> exists x, elemAt array ix = Some x.
Proof.
  unfold elemAt, arrayLength. intros H.
  destruct (ix <? 0) eqn:E; [apply Z.ltb_lt in E; lia|].
  destruct (nth_error array (Z.to_nat ix)) as [x|] eqn:N; [now exists x|].
  apply nth_error_None in N. lia.
Qed.

Lemma elemAt_negative (array : list T) (ix : Z) :
  ix < 0 -> elemAt array ix = None.
Proof.
  unfold elemAt. intros H. apply Z.ltb_lt in H. now rewrite H.
Qed.

Lemma elemAt_cons_0 (x : T) (array : list T) : elemAt (x :: array) 0 = Some x.
Proof. reflexivity. Qed.

Lemma elemAt_cons_succ (x : T) (array : list T) (ix : Z) :
  0 <= ix -> elemAt (x :: array) (ix + 1) = elemAt array ix.
Proof.
  intros H. unfold elemAt.
  destruct (ix + 1 <? 0) eqn:E1; [apply Z.ltb_lt in E1; lia|].
  destruct (ix <? 0) eqn:E2; [apply Z.ltb_lt in E2; lia|].
  replace (Z.to_nat (ix + 1)) with (S (Z.to_nat ix)) by lia.
  reflexivity.
Qed.

Lemma elemAt_cons_inv (x y : T) (array : list T) (ix : Z) :
  elemAt (x :: array) ix = Some y ->
  (ix = 0 /\ y = x) \/ (0 < ix /\ elemAt array (ix - 1) = Some y).
Proof.
  intros H. pose proof (elemAt_bounds _ _ _ H) as B.
  destruct (Z.eq_dec ix 0) as [->|N].
  - left. rewrite elemAt_cons_0 in H. now inversion H.
  - right. split; [lia|].
    replace ix with ((ix - 1) + 1) in H by lia.
    rewrite elemAt_cons_succ in H by lia. exact H.
Qed.

Context {U : Type}.
Variable compare : U -> T -> Z.
Variable value : U.

Lemma glbFrom_spec (array : list T) : forall i best,
  (glbFrom compare value array i best = best /\
   forall n x, nth_error array n = Some x -> compare value x < 0)
  \/
  (exists n x,
      glbFrom compare value array i best = i + Z.of_nat n /\
      nth_error array n = Some x /\
      0 <= compare value x /\
      forall m y, (n < m)%nat -> nth_error array m = Some y ->
                  compare value y < 0).
Proof.
  induction array as [|item rest IH]; intros i best; simpl.
  - left. split; [reflexivity|]. intros [|n] x; discriminate.
  - destruct (0 <=? compare value item) eqn:E.
    + apply Z.leb_le in E.
      destruct (IH (i + 1) i) as [[Hg Hall]|(n & x & Hg & Hn & Hc & Hall)].
      * right. exists 0%nat, item. rewrite Hg.
        repeat split; [lia|assumption|].
        intros [|m] y Hm; [lia|]. simpl. apply Hall.
      * right. exists (S n), x. rewrite Hg.
        repeat split; [lia|assumption|assumption|].
        intros [|m] y Hm; [lia|]. simpl. apply Hall. lia.
    + apply Z.leb_gt in E.
      destruct (IH (i + 1) best) as [[Hg Hall]|(n & x & Hg & Hn & Hc & Hall)].
      * left. split; [assumption|].
        intros [|n] x; simpl; [intros [= <-]; assumption|apply Hall].
      * right. exists (S n), x. rewrite Hg.
        repeat split; [lia|assumption|assumption|].
        intros [|m] y Hm; [lia|]. simpl. apply Hall. lia.
Qed.

(** The contract of section 4.1, in the two cases of its result. *)
Lemma glb_spec (array : list T) :
  (glb array value compare = -1 /\
   forall k x, elemAt array k = Some x -> compare value x < 0)
  \/
  (exists x,
      elemAt array (glb array value compare) = Some x /\
      0 <= compare value x /\
      forall k y, glb array value compare < k -> elemAt array k = Some y ->
                  compare value y < 0).
Proof.
  unfold glb.
  destruct (glbFrom_spec array 0 (-1)) as [[Hg Hall]|(n & x & Hg & Hn & Hc & Hall)].
  - left. split; [assumption|]. intros k x H.
    pose proof (elemAt_bounds _ _ _ H) as B.
    apply (Hall (Z.to_nat k)).
    rewrite <- elemAt_of_nat, Z2Nat.id by lia. exact H.
  - right. exists x. rewrite Hg. simpl. rewrite elemAt_of_nat.
    repeat split; [assumption|assumption|].
    intros k y Hk H. pose proof (elemAt_bounds _ _ _ H) as B.
    apply (Hall (Z.to_nat k)); [lia|].
    rewrite <- elemAt_of_nat, Z2Nat.id by lia. exact H.
Qed.

Lemma glb_range (array : list T) :
  -1 <= glb array value compare < arrayLength array.
Proof.
  destruct (glb_spec array) as [[Hg _]|(x & Hx & _)].
  - rewrite Hg. unfold arrayLength. lia.
  - apply elemAt_bounds in Hx. lia.
Qed.

Lemma glb_negative (array : list T) (k : Z) (x : T) :
  glb array value compare < 0 -> elemAt array k = Some x -> compare value x < 0.
Proof.
  intros Hneg H.
  destruct (glb_spec array) as [[_ Hall]|(y & Hy & _)].
  - now apply (Hall k).
  - apply elemAt_bounds in Hy. lia.
Qed.

Lemma glb_found (array : list T) :
  0 <= glb array value compare ->
  exists x, elemAt array (glb array value compare) = Some x /\
            0 <= compare value x.
Proof.
  intros Hpos.
  destruct (glb_spec array) as [[Hg _]|(x & Hx & Hc & _)]; [lia|].
  now exists x.
Qed.

Lemma glb_greatest (array : list T) (k : Z) (x : T) :
  elemAt array k = Some x -> 0 <= compare value x ->
  k <= glb array value compare.
Proof.
  intros H Hc.
  destruct (glb_spec array) as [[_ Hall]|(y & _ & _ & Hall)].
  - specialize (Hall k x H). lia.
  - destruct (Z_le_gt_dec k (glb array value compare)) as [L|G]; [assumption|].
    specialize (Hall k x ltac:(lia) H). lia.
Qed.

End ArrayFacts.

(** ** Strings *)

Lemma strlen_nonneg (s : string) : 0 <= strlen s.
Proof. unfold strlen. lia. Qed.

Lemma strlen_append (a b : string) :
  strlen (a ++ b)%string = strlen a + strlen b.
Proof.
  unfold strlen. induction a as [|c a IH]; simpl String.length; [lia|].
  rewrite !Nat2Z.inj_succ. lia.
Qed.

Lemma strlen_join (list : list string) : strlen (join list) = totalLength list.
Proof.
  unfold join. induction list as [|x rest IH]; [reflexivity|].
  destruct rest as [|y rest].
  - simpl. lia.
  - change (String.concat "" (x :: y :: rest))
      with (x ++ ("" ++ String.concat "" (y :: rest)))%string.
    rewrite strlen_append.
    change ("" ++ String.concat "" (y :: rest))%string
      with (String.concat "" (y :: rest)).
    rewrite IH. reflexivity.
Qed.

Lemma join_cons (x : string) (rest : list string) :
  join (x :: rest) = (x ++ join rest)%string.
Proof.
  unfold join. destruct rest as [|y rest].
  - simpl. induction x as [|c x IH]; simpl; [reflexivity|now rewrite <- IH].
  - reflexivity.
Qed.

Lemma substring_whole (s : string) :
  String.substring 0 (String.length s) s = s.
Proof.
  induction s as [|c s IH]; [reflexivity|]. simpl. now rewrite IH.
Qed.

Lemma substring_full_range (s : string) : substring s 0 (strlen s) = s.
Proof.
  unfold substring, clamp. pose proof (strlen_nonneg s) as H.
  rewrite Z.max_id, (Z.min_l 0) by lia.
  rewrite (Z.max_l (strlen s) 0), Z.min_id by lia.
  rewrite (Z.min_l 0), (Z.max_r 0) by lia.
  rewrite Z.sub_0_r. unfold strlen. rewrite Nat2Z.id.
  apply substring_whole.
Qed.

(** ** The segment table of [mappedString] *)

Lemma mappedStringOfText_fields (source : string) (pieces : list StringChunk) :
  mappedStringOfText source pieces =
  {| value := join (resultList source pieces);
     originalString := source;
     map := mapOver (segments source pieces);
     mapClosest := mapClosestOver (segments source pieces) |}.
Proof.
  unfold mappedStringOfText, segments, resultList.
  now destruct (resolvePieces source 0 pieces).
Qed.

Lemma resolvePieces_cons source from piece rest :
  resolvePieces source from (piece :: rest) =
  (fst (resolvePiece source from piece)
     :: fst (resolvePieces source
               (from + length (fst (resolvePiece source from piece))) rest),
   snd (resolvePiece source from piece)
     :: snd (resolvePieces source
               (from + length (fst (resolvePiece source from piece))) rest)).
Proof.
  simpl. destruct (resolvePiece source from piece) as [info text]. simpl.
  now destruct (resolvePieces source (from + length info) rest).
Qed.

Lemma resolvePiece_text source from piece :
  snd (resolvePiece source from piece) = resolvedText source piece.
Proof. now destruct piece. Qed.

Lemma resolvePiece_info source from piece :
  offset (fst (resolvePiece source from piece)) = from /\
  describes source piece (fst (resolvePiece source from piece)).
Proof.
  destruct piece as [p|[s e]]; simpl; unfold describes; simpl; auto.
Qed.

Lemma resolvePieces_texts source : forall pieces from,
  snd (resolvePieces source from pieces) = List.map (resolvedText source) pieces.
Proof.
  induction pieces as [|piece rest IH]; intros from; [reflexivity|].
  rewrite resolvePieces_cons. simpl.
  now rewrite resolvePiece_text, IH.
Qed.

Lemma resolvePieces_describes source : forall pieces from,
  Forall2 (describes source) pieces (fst (resolvePieces source from pieces)).
Proof.
  induction pieces as [|piece rest IH]; intros from; [constructor|].
  rewrite resolvePieces_cons. simpl. constructor; [|apply IH].
  apply resolvePiece_info.
Qed.

Lemma resolvePieces_contiguous source : forall pieces from,
  contiguous from (fst (resolvePieces source from pieces)).
Proof.
  induction pieces as [|piece rest IH]; intros from; [exact I|].
  rewrite resolvePieces_cons. simpl.
  destruct (resolvePiece_info source from piece) as [Hoff [Hlen Hkind]].
  repeat split; [assumption| |intros Hs|apply IH].
  - rewrite Hlen. apply strlen_nonneg.
  - destruct piece as [p|r]; destruct Hkind as [Hf Hr]; [congruence|].
    now exists r.
Qed.

Lemma resolvePieces_end source : forall pieces from,
  tableEnd from (fst (resolvePieces source from pieces)) =
  from + strlen (join (snd (resolvePieces source from pieces))).
Proof.
  induction pieces as [|piece rest IH]; intros from.
  - simpl. unfold strlen. simpl. lia.
  - rewrite resolvePieces_cons. simpl fst. simpl snd. simpl tableEnd.
    rewrite IH, join_cons, strlen_append.
    destruct (resolvePiece_info source from piece) as [_ [Hlen _]].
    rewrite Hlen, resolvePiece_text. lia.
Qed.

Lemma tableEnd_ge (table : list OffsetInfo) : forall from,
  contiguous from table -> from <= tableEnd from table.
Proof.
  induction table as [|info rest IH]; intros from H; simpl; [lia|].
  destruct H as (_ & Hlen & _ & Hrest). specialize (IH _ Hrest). lia.
Qed.

Lemma contiguous_elem (table : list OffsetInfo) : forall from k info,
  contiguous from table -> elemAt table k = Some info ->
  from <= offset info /\ 0 <= length info /\
  offset info + length info <= tableEnd from table /\
  (fromSource info = true -> exists r, range info = Some r).
Proof.
  induction table as [|first rest IH]; intros from k info H E.
  - apply elemAt_bounds in E. unfold arrayLength in E. simpl in E. lia.
  - destruct H as (Hoff & Hlen & Hrange & Hrest).
    destruct (elemAt_cons_inv _ _ _ _ E) as [[-> ->]|[Hk E']].
    + simpl tableEnd. pose proof (tableEnd_ge _ _ Hrest). repeat split; auto; lia.
    + destruct (IH _ _ _ Hrest E') as (A & B & C & D).
      simpl tableEnd. repeat split; auto; lia.
Qed.

Lemma contiguous_last (table : list OffsetInfo) : forall from info,
  contiguous from table ->
  elemAt table (arrayLength table - 1) = Some info ->
  offset info + length info = tableEnd from table.
Proof.
  induction table as [|first rest IH]; intros from info H E.
  - apply elemAt_bounds in E. unfold arrayLength in E. simpl in E. lia.
  - destruct H as (Hoff & Hlen & Hrange & Hrest).
    destruct (elemAt_cons_inv _ _ _ _ E) as [[Hz ->]|[Hk E']].
    + destruct rest as [|second rest].
      * simpl. lia.
      * unfold arrayLength in Hz. simpl List.length in Hz. lia.
    + simpl tableEnd. apply IH; [assumption|].
      replace (arrayLength rest - 1) with (arrayLength (first :: rest) - 1 - 1);
        [assumption|].
      unfold arrayLength. simpl List.length. lia.
Qed.

Lemma contiguous_sorted (table : list OffsetInfo) : forall from j k a b,
  contiguous from table ->
  elemAt table j = Some a -> elemAt table k = Some b -> j <= k ->
  offset a <= offset b.
Proof.
  induction table as [|first rest IH]; intros from j k a b H Ej Ek Hjk.
  - apply elemAt_bounds in Ej. unfold arrayLength in Ej. simpl in Ej. lia.
  - pose proof H as (Hoff & Hlen & Hrange & Hrest).
    destruct (elemAt_cons_inv _ _ _ _ Ej) as [[-> ->]|[Hj Ej']].
    + destruct (contiguous_elem _ _ _ _ H Ek) as [Hb _]. lia.
    + destruct (elemAt_cons_inv _ _ _ _ Ek) as [[-> ->]|[Hk Ek']]; [lia|].
      apply (IH _ (j - 1) (k - 1) a b Hrest Ej' Ek'). lia.
Qed.

Lemma segments_contiguous source pieces : contiguous 0 (segments source pieces).
Proof. apply resolvePieces_contiguous. Qed.

Lemma segments_end source pieces :
  tableEnd 0 (segments source pieces) =
  strlen (value (mappedStringOfText source pieces)).
Proof.
  rewrite mappedStringOfText_fields. simpl value.
  unfold segments, resultList. now rewrite resolvePieces_end.
Qed.

(** ** The forward map over a string source *)

Lemma mapOver_negative (table : list OffsetInfo) (o : Z) :
  glb table o compareOffset < 0 -> mapOver table o = Ret None.
Proof.
  intros H. unfold mapOver. apply Z.ltb_lt in H. now rewrite H.
Qed.

Lemma mapOver_at (table : list OffsetInfo) (o : Z) (info : OffsetInfo) :
  elemAt table (glb table o compareOffset) = Some info ->
  mapOver table o =
  if negb (fromSource info) then Ret None
  else if o - offset info >=? length info then Ret None
       else match range info with
            | None => Throw TypeError
            | Some r => Ret (Some (start r + (o - offset info)))
            end.
Proof.
  intros E. unfold mapOver. pose proof (elemAt_bounds _ _ _ E) as B.
  destruct (glb table o compareOffset <? 0) eqn:L;
    [apply Z.ltb_lt in L; lia|].
  now rewrite E.
Qed.

(** Whenever the forward map over a table is defined, it is the exact
    position in the covering segment. *)
Lemma mapOver_defined (table : list OffsetInfo) (o v : Z) :
  mapOver table o = Ret (Some v) ->
  exists info r,
    elemAt table (glb table o compareOffset) = Some info /\
    fromSource info = true /\ range info = Some r /\
    0 <= o - offset info < length info /\
    v = start r + (o - offset info).
Proof.
  unfold mapOver.
  destruct (glb table o compareOffset <? 0) eqn:L; [discriminate|].
  apply Z.ltb_ge in L.
  destruct (glb_found compareOffset o table L) as (info & E & C).
  rewrite E. unfold compareOffset in C.
  destruct (fromSource info) eqn:F; simpl; [|discriminate].
  destruct (o - offset info >=? length info) eqn:G; [discriminate|].
  destruct (range info) as [r|] eqn:R; [|discriminate].
  intros [= <-]. exists info, r.
  rewrite Z.geb_leb in G. apply Z.leb_gt in G.
  repeat split; auto; lia.
Qed.

(** C5. Over a string source, [value] is the resolved pieces joined,
    with one segment descriptor for each piece, each starting where the
    one before ends; [map] gives "unmapped" when no segment covers the
    offset, when the covering segment is literal, or when the offset is
    past the segment's length, and otherwise [range.start +
    (o - offset)] of the covering segment.  For "abcdef" with the pieces
    range(2,5), "-X-", range(0,2) the value is "cde-X-ab", [map] sends
    0..7 to 2, 3, 4, unmapped, unmapped, unmapped, 0, 1, and
    [mapClosest] sends 3, 4 and 5 to 4. *)
Theorem mappedString_text_value_map (source : string)
        (pieces : list StringChunk) :
  (value (mappedString (inl source) pieces)
   = join (List.map (resolvedText source) pieces) /\
   originalString (mappedString (inl source) pieces) = source /\
   Forall2 (describes source) pieces (segments source pieces) /\
   contiguous 0 (segments source pieces) /\
   forall o : Z,
     (glb (segments source pieces) o compareOffset < 0 ->
      map (mappedString (inl source) pieces) o = Ret None) /\
     (forall info,
         elemAt (segments source pieces)
                (glb (segments source pieces) o compareOffset) = Some info ->
         (fromSource info = false ->
          map (mappedString (inl source) pieces) o = Ret None) /\
         (length info <= o - offset info ->
          map (mappedString (inl source) pieces) o = Ret None) /\
         (fromSource info = true -> o - offset info < length info ->
          exists r, range info = Some r /\
                    map (mappedString (inl source) pieces) o
                    = Ret (Some (start r + (o - offset info))))))
  /\
  (value (mappedString (inl "abcdef")
                       [rangePiece 2 5; Literal "-X-"; rangePiece 0 2])
   = "cde-X-ab" /\
   List.map (map (mappedString (inl "abcdef")
                    [rangePiece 2 5; Literal "-X-"; rangePiece 0 2]))
            [0; 1; 2; 3; 4; 5; 6; 7]
   = [Ret (Some 2); Ret (Some 3); Ret (Some 4); Ret None; Ret None; Ret None;
      Ret (Some 0); Ret (Some 1)] /\
   List.map (mapClosest (mappedString (inl "abcdef")
                    [rangePiece 2 5; Literal "-X-"; rangePiece 0 2]))
            [3; 4; 5]
   = [Ret (Some 4); Ret (Some 4); Ret (Some 4)]).
Proof.
  split; [|repeat split; reflexivity].
  unfold mappedString. rewrite mappedStringOfText_fields. simpl.
  split; [|split; [|split; [|split]]].
  - unfold resultList. now rewrite resolvePieces_texts.
  - reflexivity.
  - apply resolvePieces_describes.
  - apply segments_contiguous.
  - intros o. split; [apply mapOver_negative|].
    intros info E. rewrite (mapOver_at _ _ _ E).
    destruct (contiguous_elem _ _ _ _ (segments_contiguous source pieces) E)
      as (_ & _ & _ & Hr).
    repeat split.
    + now intros ->.
    + intros H. destruct (negb (fromSource info)); [reflexivity|].
      assert ((o - offset info >=? length info) = true) as ->
          by (rewrite Z.geb_leb; now apply Z.leb_le).
      reflexivity.
    + intros F H. destruct (Hr F) as [r R]. exists r. split; [assumption|].
      rewrite F, R. simpl.
      assert ((o - offset info >=? length info) = false) as ->
          by (rewrite Z.geb_leb; now apply Z.leb_gt).
      reflexivity.
Qed.

Lemma mappedString_text_value_map_witness :
  exists r,
    range {| fromSource := true; length := 2; offset := 6;
             range := Some {| start := 0; end_ := 2 |} |} = Some r /\
    map (mappedString (inl "abcdef")
           [rangePiece 2 5; Literal "-X-"; rangePiece 0 2]) 7
    = Ret (Some (start r + (7 - 6))).
Proof.
  destruct (mappedString_text_value_map "abcdef"
              [rangePiece 2 5; Literal "-X-"; rangePiece 0 2])
    as [(_ & _ & _ & _ & H) _].
  destruct (H 7) as [_ H7].
  destruct (H7 {| fromSource := true; length := 2; offset := 6;
                  range := Some {| start := 0; end_ := 2 |} |})
    as (_ & _ & Hexact).
  - reflexivity.
  - apply Hexact; [reflexivity|simpl; lia].
Defined.

(** ** The closest map over a string source *)

Section ClosestOverTable.

Variable table : list OffsetInfo.
Hypothesis table_contiguous : contiguous 0 table.
Variable o : Z.
Variable firstIx : Z.

(** The scan returns "unmapped" when it meets literal segments only. *)
Lemma mapClosestLoop_literal : forall n : nat,
  Z.of_nat n <= arrayLength table ->
  (forall k info, 0 <= k < Z.of_nat n -> elemAt table k = Some info ->
                  fromSource info = false) ->
  mapClosestLoop table o firstIx None n = Ret None.
Proof.
  induction n as [|n IH]; intros Hn Hlit; [reflexivity|].
  simpl mapClosestLoop.
  destruct (elemAt_in_range table (Z.of_nat n) ltac:(lia)) as [info E].
  rewrite E, (Hlit (Z.of_nat n) info) by (assumption || lia). simpl.
  apply IH; [lia|]. intros k other Hk. apply Hlit. lia.
Qed.

(** The scan stops at the first source-derived segment it meets. *)
Lemma mapClosestLoop_found (j : Z) (info : OffsetInfo) (r : Range) :
  elemAt table j = Some info -> fromSource info = true ->
  range info = Some r ->
  forall (n : nat) (smallest : option OffsetInfo),
  j < Z.of_nat n <= arrayLength table ->
  (forall k other, j < k < Z.of_nat n -> elemAt table k = Some other ->
                   fromSource other = false) ->
  mapClosestLoop table o firstIx smallest n =
  if (j =? firstIx) && (o - offset info <? length info)
  then Ret (Some (start r + (o - offset info)))
  else Ret (Some (end_ r - 1)).
Proof.
  intros E F R. pose proof (elemAt_bounds _ _ _ E) as B.
  induction n as [|n IH]; intros smallest Hn Hlit; [lia|].
  simpl mapClosestLoop.
  destruct (Z.eq_dec j (Z.of_nat n)) as [<-|N].
  - rewrite E, F, R. simpl.
    destruct (j =? firstIx); simpl; [|reflexivity].
    now destruct (o - offset info <? length info).
  - destruct (elemAt_in_range table (Z.of_nat n) ltac:(lia)) as [other E'].
    rewrite E', (Hlit (Z.of_nat n) other) by (assumption || lia). simpl.
    apply IH; [lia|]. intros k other' Hk. apply Hlit. lia.
Qed.

(** When the scan returns "unmapped", every segment it went through is
    literal. *)
Lemma mapClosestLoop_unmapped : forall n : nat,
  mapClosestLoop table o firstIx None n = Ret None ->
  forall k info, 0 <= k < Z.of_nat n -> elemAt table k = Some info ->
                 fromSource info = false.
Proof.
  induction n as [|n IH]; intros H k info Hk E; [lia|].
  simpl mapClosestLoop in H.
  destruct (elemAt table (Z.of_nat n)) as [last|] eqn:E'; [|discriminate].
  destruct (fromSource last) eqn:F; simpl in H.
  - destruct (range last) as [r|]; [|discriminate].
    destruct (Z.of_nat n =? firstIx); [|discriminate].
    destruct (o - offset last <? length last); discriminate.
  - destruct (Z.eq_dec k (Z.of_nat n)) as [->|N].
    + congruence.
    + apply (IH H k); [lia|assumption].
Qed.

(** The scan never throws: a source-derived segment has its range. *)
Lemma mapClosestLoop_returns : forall n : nat,
  Z.of_nat n <= arrayLength table ->
  exists v, mapClosestLoop table o firstIx None n = Ret v.
Proof.
  induction n as [|n IH]; intros Hn; [now exists None|].
  simpl mapClosestLoop.
  destruct (elemAt_in_range table (Z.of_nat n) ltac:(lia)) as [info E].
  rewrite E. destruct (fromSource info) eqn:F; simpl.
  - destruct (contiguous_elem _ _ _ _ table_contiguous E) as (_ & _ & _ & Hr).
    destruct (Hr F) as [r ->].
    destruct (Z.of_nat n =? firstIx); [|eauto].
    destruct (o - offset info <? length info); eauto.
  - apply IH. lia.
Qed.

End ClosestOverTable.

Section ClosestOver.

Variable table : list OffsetInfo.
Hypothesis table_contiguous : contiguous 0 table.
Variable o : Z.

(** A segment at or before the anchor exists only for offsets from 0. *)
Lemma anchor_nonneg :
  0 <= glb table o compareOffset -> 0 <= o /\ arrayLength table <> 0.
Proof.
  intros H. destruct (glb_found compareOffset o table H) as (x & E & C).
  unfold compareOffset in C.
  destruct (contiguous_elem _ _ _ _ table_contiguous E) as (A & _).
  apply elemAt_bounds in E. lia.
Qed.

Lemma mapClosestOver_scan :
  0 <= glb table o compareOffset ->
  mapClosestOver table o =
  mapClosestLoop table o (glb table o compareOffset) None
                 (Z.to_nat (glb table o compareOffset + 1)).
Proof.
  intros H. destruct (anchor_nonneg H) as [Ho Hlen]. unfold mapClosestOver.
  destruct (arrayLength table =? 0) eqn:L; [apply Z.eqb_eq in L; lia|].
  destruct (o <? 0) eqn:N; [apply Z.ltb_lt in N; lia|].
  reflexivity.
Qed.

Lemma mapClosestOver_found (j : Z) (info : OffsetInfo) (r : Range) :
  0 <= j <= glb table o compareOffset ->
  elemAt table j = Some info -> fromSource info = true ->
  range info = Some r ->
  (forall k other, j < k <= glb table o compareOffset ->
                   elemAt table k = Some other -> fromSource other = false) ->
  mapClosestOver table o =
  if (j =? glb table o compareOffset) && (o - offset info <? length info)
  then Ret (Some (start r + (o - offset info)))
  else Ret (Some (end_ r - 1)).
Proof.
  intros Hj E F R Hlit.
  rewrite mapClosestOver_scan by lia.
  pose proof (glb_range compareOffset o table) as G.
  apply (mapClosestLoop_found table o _ j info r E F R); [lia|].
  intros k other Hk. apply Hlit. lia.
Qed.

Lemma mapClosestOver_unmapped_iff :
  mapClosestOver table o = Ret None <->
  (forall j info, elemAt table j = Some info -> offset info <= o ->
                  fromSource info = false).
Proof.
  pose proof (glb_range compareOffset o table) as G.
  destruct (Z_lt_ge_dec (glb table o compareOffset) 0) as [Neg|Pos].
  - split.
    + intros _ j info E Hle.
      pose proof (glb_negative compareOffset o table j info Neg E) as C.
      unfold compareOffset in C. lia.
    + intros _. unfold mapClosestOver.
      destruct (arrayLength table =? 0) eqn:L; [reflexivity|].
      destruct (o <? 0) eqn:N; [reflexivity|]. simpl.
      replace (Z.to_nat (glb table o compareOffset + 1)) with O by lia.
      reflexivity.
  - rewrite mapClosestOver_scan by lia. split.
    + intros H j info E Hle.
      apply (mapClosestLoop_unmapped table o _ _ H j info); [|assumption].
      assert (0 <= compareOffset o info) as C by (unfold compareOffset; lia).
      pose proof (glb_greatest compareOffset o table j info E C).
      pose proof (elemAt_bounds _ _ _ E). lia.
    + intros Hlit. apply mapClosestLoop_literal; [lia|].
      intros k info Hk E. apply (Hlit k info E).
      destruct (glb_found compareOffset o table ltac:(lia)) as (x & Ex & C).
      unfold compareOffset in C.
      pose proof (contiguous_sorted _ _ k _ info x table_contiguous E Ex).
      lia.
Qed.

Lemma mapClosestOver_returns : exists v, mapClosestOver table o = Ret v.
Proof.
  unfold mapClosestOver.
  destruct ((arrayLength table =? 0) || (o <? 0)); [now exists None|].
  apply mapClosestLoop_returns; [assumption|].
  pose proof (glb_range compareOffset o table). lia.
Qed.

End ClosestOver.

(** C2. Over a string source, with the anchor the segment that the
    search finds for [o]: [mapClosest o] is the exact forward-mapped
    position when the anchor is source-derived and [o] is strictly
    within its length; otherwise it is [range.end - 1] of the nearest
    source-derived segment at or before the anchor; it is "unmapped"
    exactly when no source-derived segment starts at or before [o]; and
    it always returns.  For "hello world" with the pieces
    "prefix-literal", range(0,5), "suffix-literal", every offset inside
    the prefix is unmapped and every offset inside the suffix gives 4. *)
Theorem mappedString_text_mapClosest (source : string)
        (pieces : list StringChunk) :
  (forall o : Z,
      (forall info,
          elemAt (segments source pieces)
                 (glb (segments source pieces) o compareOffset) = Some info ->
          fromSource info = true -> o - offset info < length info ->
          exists r, range info = Some r /\
                    mapClosest (mappedString (inl source) pieces) o
                    = Ret (Some (start r + (o - offset info))) /\
                    mapClosest (mappedString (inl source) pieces) o
                    = map (mappedString (inl source) pieces) o) /\
      (forall j info,
          0 <= j <= glb (segments source pieces) o compareOffset ->
          elemAt (segments source pieces) j = Some info ->
          fromSource info = true ->
          (forall k other,
              j < k <= glb (segments source pieces) o compareOffset ->
              elemAt (segments source pieces) k = Some other ->
              fromSource other = false) ->
          (j = glb (segments source pieces) o compareOffset ->
           length info <= o - offset info) ->
          exists r, range info = Some r /\
                    mapClosest (mappedString (inl source) pieces) o
                    = Ret (Some (end_ r - 1))) /\
      (mapClosest (mappedString (inl source) pieces) o = Ret None <->
       forall j info,
         elemAt (segments source pieces) j = Some info -> offset info <= o ->
         fromSource info = false) /\
      (exists v, mapClosest (mappedString (inl source) pieces) o = Ret v))
  /\
  ((forall o, 0 <= o < strlen "prefix-literal" ->
      mapClosest (mappedString (inl "hello world")
                    [Literal "prefix-literal"; rangePiece 0 5;
                     Literal "suffix-literal"]) o = Ret None) /\
   (forall o,
      strlen "prefix-literal" + 5 <= o
      < strlen "prefix-literal" + 5 + strlen "suffix-literal" ->
      mapClosest (mappedString (inl "hello world")
                    [Literal "prefix-literal"; rangePiece 0 5;
                     Literal "suffix-literal"]) o = Ret (Some 4))).
Proof.
  split.
  - intros o. unfold mappedString. rewrite mappedStringOfText_fields.
    simpl map. simpl mapClosest.
    pose proof (segments_contiguous source pieces) as Hc.
    split; [|split; [|split]].
    + intros info E F Hin.
      destruct (contiguous_elem _ _ _ _ Hc E) as (_ & _ & _ & Hr).
      destruct (Hr F) as [r R]. exists r. split; [assumption|].
      pose proof (elemAt_bounds _ _ _ E) as B.
      rewrite (mapClosestOver_found
                 _ Hc o (glb (segments source pieces) o compareOffset)
                 info r ltac:(lia) E F R)
        by (intros; lia).
      rewrite (mapOver_at _ _ _ E), F, R. simpl.
      rewrite Z.eqb_refl. simpl.
      assert ((o - offset info <? length info) = true) as ->
          by now apply Z.ltb_lt.
      assert ((o - offset info >=? length info) = false) as ->
          by (rewrite Z.geb_leb; now apply Z.leb_gt).
      split; reflexivity.
    + intros j info Hj E F Hlit Hpast.
      destruct (contiguous_elem _ _ _ _ Hc E) as (_ & _ & _ & Hr).
      destruct (Hr F) as [r R]. exists r. split; [assumption|].
      rewrite (mapClosestOver_found _ Hc o j info r Hj E F R Hlit).
      destruct (j =? glb (segments source pieces) o compareOffset) eqn:J;
        [|reflexivity].
      apply Z.eqb_eq in J. specialize (Hpast J).
      assert ((o - offset info <? length info) = false) as ->
          by now apply Z.ltb_ge.
      reflexivity.
    + apply mapClosestOver_unmapped_iff; assumption.
    + apply mapClosestOver_returns; assumption.
  - split; intros o Ho.
    + assert (In o [0; 1; 2; 3; 4; 5; 6; 7; 8; 9; 10; 11; 12; 13]) as Hin
          by (change (strlen "prefix-literal") with 14 in Ho; simpl; lia).
      simpl in Hin.
      repeat (destruct Hin as [<-|Hin]; [reflexivity|]). contradiction.
    + assert (In o [19; 20; 21; 22; 23; 24; 25; 26; 27; 28; 29; 30; 31; 32])
        as Hin
          by (change (strlen "prefix-literal") with 14 in Ho;
              change (strlen "suffix-literal") with 14 in Ho; simpl; lia).
      simpl in Hin.
      repeat (destruct Hin as [<-|Hin]; [reflexivity|]). contradiction.
Qed.

Lemma mappedString_text_mapClosest_witness :
  exists r,
    range {| fromSource := true; length := 5; offset := 14;
             range := Some {| start := 0; end_ := 5 |} |} = Some r /\
    mapClosest (mappedString (inl "hello world")
                  [Literal "prefix-literal"; rangePiece 0 5;
                   Literal "suffix-literal"]) 20
    = Ret (Some (end_ r - 1)).
Proof.
  destruct (mappedString_text_mapClosest "hello world"
              [Literal "prefix-literal"; rangePiece 0 5;
               Literal "suffix-literal"]) as [H _].
  destruct (H 20) as (_ & Hback & _).
  assert (glb (segments "hello world"
                 [Literal "prefix-literal"; rangePiece 0 5;
                  Literal "suffix-literal"]) 20 compareOffset = 2) as G
      by reflexivity.
  apply (Hback 1); rewrite ?G.
  - lia.
  - reflexivity.
  - reflexivity.
  - intros k other Hk E. assert (k = 2) as -> by lia.
    vm_compute in E. injection E as <-. reflexivity.
  - intros J. discriminate J.
Defined.

(** ** Offsets outside the value *)

Lemma mapOver_returns (table : list OffsetInfo) (o : Z) :
  contiguous 0 table -> exists v, mapOver table o = Ret v.
Proof.
  intros Hc. unfold mapOver.
  destruct (glb table o compareOffset <? 0) eqn:L; [now exists None|].
  apply Z.ltb_ge in L.
  destruct (glb_found compareOffset o table L) as (info & E & _).
  rewrite E. destruct (fromSource info) eqn:F; simpl; [|now exists None].
  destruct (o - offset info >=? length info); [now exists None|].
  destruct (contiguous_elem _ _ _ _ Hc E) as (_ & _ & _ & Hr).
  destruct (Hr F) as [r ->]. eauto.
Qed.

Lemma mapOver_outside (table : list OffsetInfo) (o : Z) :
  contiguous 0 table -> o < 0 \/ tableEnd 0 table <= o ->
  mapOver table o = Ret None.
Proof.
  intros Hc Hout.
  destruct (Z_lt_ge_dec (glb table o compareOffset) 0) as [Neg|Pos];
    [now apply mapOver_negative|].
  destruct (glb_found compareOffset o table ltac:(lia)) as (info & E & C).
  unfold compareOffset in C.
  destruct (contiguous_elem _ _ _ _ Hc E) as (Hoff & Hlen & Hend & _).
  destruct Hout as [Hneg|Hpast]; [lia|].
  pose proof (elemAt_bounds _ _ _ E) as B.
  destruct (elemAt_in_range table (arrayLength table - 1) ltac:(lia))
    as [last El].
  destruct (contiguous_elem _ _ _ _ Hc El) as (_ & Hlen' & Hend' & _).
  assert (0 <= compareOffset o last) as Cl by (unfold compareOffset; lia).
  pose proof (glb_greatest compareOffset o table _ last El Cl) as G.
  assert (glb table o compareOffset = arrayLength table - 1) as Eq by lia.
  rewrite Eq in E. rewrite E in El. injection El as <-.
  pose proof (contiguous_last _ _ _ Hc E) as Hlast.
  rewrite <- Eq in E. rewrite (mapOver_at _ _ _ E).
  destruct (negb (fromSource info)); [reflexivity|].
  assert ((o - offset info >=? length info) = true) as ->
      by (rewrite Z.geb_leb; apply Z.leb_le; lia).
  reflexivity.
Qed.

Lemma mappedString_map_outside (source : string + MappedString)
      (pieces : list StringChunk) (o : Z) :
  o < 0 \/ strlen (value (mappedString source pieces)) <= o ->
  map (mappedString source pieces) o = Ret None.
Proof.
  assert (forall text,
             o < 0 \/ strlen (value (mappedStringOfText text pieces)) <= o ->
             map (mappedStringOfText text pieces) o = Ret None) as Htext.
  { intros text Hout. rewrite <- segments_end in Hout.
    rewrite mappedStringOfText_fields. simpl map.
    apply mapOver_outside; [apply segments_contiguous|assumption]. }
  destruct source as [text|m]; simpl; intros Hout.
  - now apply Htext.
  - unfold compose. now rewrite (Htext (value m) Hout).
Qed.

Lemma routed_outside strings offsets valueLength select (o : Z) :
  o < 0 \/ valueLength <= o ->
  routed strings offsets valueLength select o = Ret None.
Proof.
  intros Hout. unfold routed.
  destruct (o <? 0) eqn:N; [reflexivity|]. apply Z.ltb_ge in N.
  destruct (o >=? valueLength) eqn:G; [reflexivity|].
  rewrite Z.geb_leb in G. apply Z.leb_gt in G. lia.
Qed.

(** ** The closest map extends the forward map *)

Lemma mapOver_mapClosestOver (table : list OffsetInfo) (o v : Z) :
  contiguous 0 table ->
  mapOver table o = Ret (Some v) -> mapClosestOver table o = Ret (Some v).
Proof.
  intros Hc H.
  destruct (mapOver_defined _ _ _ H) as (info & r & E & F & R & Hin & ->).
  pose proof (elemAt_bounds _ _ _ E) as B.
  rewrite (mapClosestOver_found
             _ Hc o (glb table o compareOffset) info r ltac:(lia) E F R)
    by (intros; lia).
  rewrite Z.eqb_refl. simpl.
  assert ((o - offset info <? length info) = true) as ->
      by (apply Z.ltb_lt; lia).
  reflexivity.
Qed.

Lemma compose_extends (previous previousClosest next nextClosest
                         : Z -> outcome (option Z)) :
  (forall o v, previous o = Ret (Some v) -> previousClosest o = Ret (Some v)) ->
  (forall o v, next o = Ret (Some v) -> nextClosest o = Ret (Some v)) ->
  forall o v, compose previous next o = Ret (Some v) ->
              compose previousClosest nextClosest o = Ret (Some v).
Proof.
  intros Hp Hn o v. unfold compose, bind.
  destruct (next o) as [[w|]|e] eqn:N; try discriminate.
  rewrite (Hn _ _ N). apply Hp.
Qed.

Lemma elemAt_In {T : Type} (array : list T) (ix : Z) (x : T) :
  elemAt array ix = Some x -> In x array.
Proof.
  unfold elemAt. destruct (ix <? 0); [discriminate|]. apply nth_error_In.
Qed.

Lemma routed_extends strings offsets valueLength :
  (forall s, In s strings ->
             forall o v, map s o = Ret (Some v) ->
                         mapClosest s o = Ret (Some v)) ->
  forall o v, routed strings offsets valueLength map o = Ret (Some v) ->
              routed strings offsets valueLength mapClosest o = Ret (Some v).
Proof.
  intros H o v. unfold routed.
  destruct ((o <? 0) || (o >=? valueLength)); [discriminate|].
  destruct (elemAt strings (glb offsets o defaultCompare)) as [s|] eqn:E;
    [|discriminate].
  destruct (elemAt offsets (glb offsets o defaultCompare)); [|discriminate].
  apply H. now apply elemAt_In in E.
Qed.

(** C4. For every mapped string that [mappedString], [asMappedString]
    or [mappedConcat] produce, and every offset: when [map] is defined,
    [mapClosest] returns the same value. *)
Theorem mapClosest_extends_map (m : MappedString) :
  Produced m ->
  forall o v, map m o = Ret (Some v) -> mapClosest m o = Ret (Some v).
Proof.
  induction 1 as [str|source pieces|source pieces Hs IH
                  |strings result Hs IH Hr].
  - intros o v H. exact H.
  - intros o v. simpl. rewrite mappedStringOfText_fields. simpl.
    apply mapOver_mapClosestOver, segments_contiguous.
  - intros o v. simpl. apply compose_extends; [exact IH|].
    intros o' v'. rewrite mappedStringOfText_fields. simpl.
    apply mapOver_mapClosestOver, segments_contiguous.
  - destruct strings as [|first rest]; [discriminate|].
    simpl in Hr. injection Hr as <-. simpl map. simpl mapClosest.
    intros o v. apply routed_extends. exact IH.
Qed.

Lemma mapClosest_extends_map_witness :
  mapClosest (mappedString
                (inr (mappedString (inl "abcdef")
                        [rangePiece 2 5; Literal "-X-"; rangePiece 0 2]))
                [rangePiece 6 8; Literal "!"]) 1
  = Ret (Some 1).
Proof.
  apply mapClosest_extends_map.
  - apply Produced_mappedString_mapped, Produced_mappedString_text.
  - reflexivity.
Defined.

(** ** A mapped string as the source *)

(** C3. For a source [M] that is a mapped string: [originalString] of
    the result is [M]'s [originalString] (the root text when [M] was
    built over it), not [M]'s [value]; [map] is [M.map] after the [map]
    of the intermediate mapped string built over [M.value], and is
    "unmapped" when either stage is; [mapClosest] composes the two
    [mapClosest] in the same way; the intermediate stage always
    returns. *)
Theorem mappedString_mapped_composes (M : MappedString)
        (pieces : list StringChunk) :
  originalString (mappedString (inr M) pieces) = originalString M /\
  (forall R pieces', originalString
                       (mappedString (inr (mappedString (inl R) pieces'))
                                     pieces) = R) /\
  value (mappedString (inr M) pieces)
  = value (mappedString (inl (value M)) pieces) /\
  forall o : Z,
    (exists v, map (mappedString (inl (value M)) pieces) o = Ret v) /\
    (exists v, mapClosest (mappedString (inl (value M)) pieces) o = Ret v) /\
    map (mappedString (inr M) pieces) o
    = match map (mappedString (inl (value M)) pieces) o with
      | Ret (Some v) => map M v
      | Ret None => Ret None
      | Throw e => Throw e
      end /\
    mapClosest (mappedString (inr M) pieces) o
    = match mapClosest (mappedString (inl (value M)) pieces) o with
      | Ret (Some v) => mapClosest M v
      | Ret None => Ret None
      | Throw e => Throw e
      end.
Proof.
  split; [reflexivity|]. split.
  { intros R pieces'. simpl. now rewrite mappedStringOfText_fields. }
  split; [reflexivity|].
  intros o. simpl. rewrite mappedStringOfText_fields. simpl.
  pose proof (segments_contiguous (value M) pieces) as Hc.
  split; [now apply mapOver_returns|].
  split; [now apply mapClosestOver_returns|].
  unfold compose, bind. split.
  - now destruct (mapOver (segments (value M) pieces) o) as [[v|]|e].
  - now destruct (mapClosestOver (segments (value M) pieces) o) as [[v|]|e].
Qed.

(** ** Copying the whole source *)

Lemma mapOver_single (len o : Z) (r : Range) :
  0 <= o < len ->
  mapOver [{| fromSource := true; length := len; offset := 0;
              range := Some r |}] o = Ret (Some (start r + (o - 0))).
Proof.
  intros H. unfold mapOver, glb, compareOffset. simpl.
  assert ((0 <=? o - 0) = true) as -> by (apply Z.leb_le; lia).
  simpl.
  assert ((o - 0 >=? len) = false) as ->
      by (rewrite Z.geb_leb; apply Z.leb_gt; lia).
  reflexivity.
Qed.

Lemma mappedStringOfText_fullRange (text : string) :
  value (mappedStringOfText text [fullRange text]) = text /\
  forall o, 0 <= o < strlen text ->
            map (mappedStringOfText text [fullRange text]) o = Ret (Some o).
Proof.
  unfold mappedStringOfText, fullRange, rangePiece. simpl.
  rewrite substring_full_range. simpl. split; [reflexivity|].
  intros o H. rewrite mapOver_single by lia. simpl. do 2 f_equal. lia.
Qed.

(** C6, as the code has it.  A single piece that is the full range of
    the source's text gives that text as [value]; over a string source
    [map o] is [o] for every offset of the value; over a source [S] that
    is a mapped string [map o] is [S.map o], the position in the root
    text. *)
Theorem mappedString_fullRange (source : string + MappedString) :
  value (mappedString source [fullRange (sourceText source)])
  = sourceText source /\
  forall o : Z,
    0 <= o < strlen (sourceText source) ->
    map (mappedString source [fullRange (sourceText source)]) o
    = match source with
      | inl _ => Ret (Some o)
      | inr source => map source o
      end.
Proof.
  destruct source as [text|source]; unfold mappedString, sourceText.
  - apply mappedStringOfText_fullRange.
  - cbn [value map].
    destruct (mappedStringOfText_fullRange (value source)) as [Hv Hm].
    split; [assumption|]. intros o H. unfold compose.
    now rewrite (Hm o H).
Qed.

Lemma mappedString_fullRange_witness :
  map (mappedString (inr (mappedString (inl "abcdef") [rangePiece 2 5]))
                    [fullRange "cde"]) 1
  = Ret (Some 3).
Proof.
  apply (proj2 (mappedString_fullRange
                  (inr (mappedString (inl "abcdef") [rangePiece 2 5]))) 1).
  vm_compute. split; [discriminate|reflexivity].
Defined.

(** C6, as stated, fails on a source that is a mapped string: over the
    source "cde" cut from "abcdef" at 2, the copy of the full range maps
    the valid offset 0 to 2, not to 0. *)
Lemma mappedString_fullRange_not_identity :
  value (mappedString (inr (mappedString (inl "abcdef") [rangePiece 2 5]))
                      [fullRange "cde"])
  = value (mappedString (inl "abcdef") [rangePiece 2 5]) /\
  0 <= 0 < strlen (value (mappedString
                            (inr (mappedString (inl "abcdef")
                                               [rangePiece 2 5]))
                            [fullRange "cde"])) /\
  map (mappedString (inr (mappedString (inl "abcdef") [rangePiece 2 5]))
                    [fullRange "cde"]) 0
  <> Ret (Some 0).
Proof.
  split; [reflexivity|].
  split; [vm_compute; split; [discriminate|reflexivity]|].
  vm_compute. discriminate.
Qed.

(** ** Concatenation *)

(** C8. [mappedConcat] of the empty list throws, and returns no mapped
    string; of any other list it returns one. *)
Theorem mappedConcat_empty_throws :
  mappedConcat [] = Throw (Error "strings must be non-empty") /\
  (forall m, mappedConcat [] <> Ret m) /\
  (forall first rest, exists m, mappedConcat (first :: rest) = Ret m).
Proof.
  split; [reflexivity|]. split; [discriminate|].
  intros first rest. simpl. eauto.
Qed.

(** C1, on the code.  With A = "ab" and B = "cd", both cut from
    "abcd", [mappedConcat [A; B]] has the value "abcd"; at offset 0,
    inside A, its [map] and [mapClosest] throw [TypeError] where A gives
    0; at offset 2, the first of B, they call A at 0 and give 0 where B
    gives 2; at offset 3 they give 1 where B gives 3. *)
Theorem mappedConcat_routes_to_previous_element :
  exists C,
    mappedConcat [mappedString (inl "abcd") [rangePiece 0 2];
                  mappedString (inl "abcd") [rangePiece 2 4]] = Ret C /\
    value C = "abcd" /\
    map (mappedString (inl "abcd") [rangePiece 0 2]) 0 = Ret (Some 0) /\
    map C 0 = Throw TypeError /\
    mapClosest C 0 = Throw TypeError /\
    map (mappedString (inl "abcd") [rangePiece 2 4]) (2 - 2) = Ret (Some 2) /\
    map C 2 = Ret (Some 0) /\
    mapClosest C 2 = Ret (Some 0) /\
    map (mappedString (inl "abcd") [rangePiece 2 4]) (3 - 2) = Ret (Some 3) /\
    map C 3 = Ret (Some 1).
Proof.
  eexists. split; [reflexivity|]. repeat split; reflexivity.
Qed.

(** What [mappedConcat] of two elements does at every offset of its
    value: inside the first element it throws, inside the second it
    calls the first at the offset local to the second. *)
Lemma mappedConcat_pair_routing (A B : MappedString) :
  exists C,
    mappedConcat [A; B] = Ret C /\
    strlen (value C) = strlen (value A) + strlen (value B) /\
    originalString C = originalString A /\
    forall o : Z,
      (0 <= o < strlen (value A) ->
       map C o = Throw TypeError /\ mapClosest C o = Throw TypeError) /\
      (strlen (value A) <= o < strlen (value A) + strlen (value B) ->
       map C o = map A (o - strlen (value A)) /\
       mapClosest C o = mapClosest A (o - strlen (value A))).
Proof.
  eexists. split; [reflexivity|].
  assert (strlen (join [value A; value B])
          = strlen (value A) + strlen (value B)) as Hlen
      by (rewrite strlen_join; simpl; lia).
  split; [exact Hlen|]. split; [reflexivity|].
  pose proof (strlen_nonneg (value A)) as HA.
  pose proof (strlen_nonneg (value B)) as HB.
  intros o. cbn [map mapClosest List.map]. rewrite Hlen.
  unfold routed, glb, defaultCompare. cbn [cumulativeOffsets glbFrom].
  split; intros Ho.
  - assert ((o <? 0) = false) as -> by (apply Z.ltb_ge; lia).
    assert ((o >=? strlen (value A) + strlen (value B)) = false) as ->
        by (rewrite Z.geb_leb; apply Z.leb_gt; lia).
    assert ((0 <=? o - (0 + strlen (value A))) = false) as ->
        by (apply Z.leb_gt; lia).
    assert ((0 <=? o - (0 + strlen (value A) + strlen (value B))) = false)
      as -> by (apply Z.leb_gt; lia).
    split; reflexivity.
  - assert ((o <? 0) = false) as -> by (apply Z.ltb_ge; lia).
    assert ((o >=? strlen (value A) + strlen (value B)) = false) as ->
        by (rewrite Z.geb_leb; apply Z.leb_gt; lia).
    assert ((0 <=? o - (0 + strlen (value A))) = true) as ->
        by (apply Z.leb_le; lia).
    assert ((0 <=? o - (0 + strlen (value A) + strlen (value B))) = false)
      as -> by (apply Z.leb_gt; lia).
    split; reflexivity.
Qed.

(** The table [offsets] of [mappedConcat] is in non-decreasing order,
    as the search expects. *)
Lemma cumulativeOffsets_sorted : forall strings currentOffset,
  StronglySorted Z.le (cumulativeOffsets currentOffset strings) /\
  Forall (Z.le currentOffset) (cumulativeOffsets currentOffset strings).
Proof.
  induction strings as [|s rest IH]; intros currentOffset; simpl.
  - split; constructor.
  - destruct (IH (currentOffset + strlen (value s))) as [Hs Hall].
    pose proof (strlen_nonneg (value s)) as Hlen.
    split; constructor; try assumption; [lia|].
    rewrite Forall_forall in Hall |- *. intros e He.
    specialize (Hall e He). lia.
Qed.

(** ** The identity wrapper *)

Lemma mappedString_mapClosest_negative (source : string + MappedString)
      (pieces : list StringChunk) (o : Z) :
  o < 0 -> mapClosest (mappedString source pieces) o = Ret None.
Proof.
  intros H.
  assert (forall table, mapClosestOver table o = Ret None) as Htable.
  { intros table. unfold mapClosestOver.
    assert ((o <? 0) = true) as -> by now apply Z.ltb_lt.
    now rewrite orb_true_r. }
  destruct source as [text|m]; unfold mappedString.
  - rewrite mappedStringOfText_fields. apply Htable.
  - cbn [mapClosest]. unfold compose.
    rewrite mappedStringOfText_fields. cbn [mapClosest].
    now rewrite Htable.
Qed.

(** C10. For every text and every integer [x], also negative or past
    the end, the [map] and the [mapClosest] of [asMappedString] return
    [x].  The maps of the other constructors differ outside the value:
    [map] of [mappedString] is "unmapped" there, so is its [mapClosest]
    below 0, and so are both maps of [mappedConcat]. *)
Theorem asMappedString_identity (s : string) (x : Z) :
  value (asMappedString s) = s /\
  originalString (asMappedString s) = s /\
  map (asMappedString s) x = Ret (Some x) /\
  mapClosest (asMappedString s) x = Ret (Some x) /\
  (forall source pieces,
      x < 0 \/ strlen (value (mappedString source pieces)) <= x ->
      map (mappedString source pieces) x = Ret None) /\
  (forall source pieces,
      x < 0 -> mapClosest (mappedString source pieces) x = Ret None) /\
  (forall strings C,
      mappedConcat strings = Ret C ->
      x < 0 \/ strlen (value C) <= x ->
      map C x = Ret None /\ mapClosest C x = Ret None).
Proof.
  do 4 (split; [reflexivity|]).
  split; [intros source pieces; apply mappedString_map_outside|].
  split; [intros source pieces; apply mappedString_mapClosest_negative|].
  intros strings C HC Hout.
  destruct strings as [|first rest]; [discriminate|].
  unfold mappedConcat in HC. injection HC as <-. cbn [map mapClosest].
  split; now apply routed_outside.
Qed.

Lemma asMappedString_identity_witness :
  map (asMappedString "abc") 3 = Ret (Some 3) /\
  map (mappedString (inl "abc") [fullRange "abc"]) 3 = Ret None.
Proof.
  destruct (asMappedString_identity "abc" 3) as (_ & _ & Hid & _ & Hout & _).
  split; [exact Hid|].
  apply Hout. right. vm_compute. discriminate.
Defined.

(** ** Mapped line numbers *)

(** The maps of the library's mapped strings throw nothing but the
    [TypeError] of a property read on [undefined]. *)
Lemma Produced_throws_TypeError (m : MappedString) :
  Produced m ->
  forall o e, (map m o = Throw e -> e = TypeError) /\
              (mapClosest m o = Throw e -> e = TypeError).
Proof.
  assert (forall text pieces o e,
             (map (mappedStringOfText text pieces) o = Throw e -> e = TypeError)
             /\ (mapClosest (mappedStringOfText text pieces) o = Throw e ->
                 e = TypeError)) as Htext.
  { intros text pieces o e. rewrite mappedStringOfText_fields.
    cbn [map mapClosest].
    pose proof (segments_contiguous text pieces) as Hc.
    destruct (mapOver_returns _ o Hc) as [v ->].
    destruct (mapClosestOver_returns _ Hc o) as [w ->].
    split; discriminate. }
  induction 1 as [str|source pieces|source pieces Hs IH
                  |strings result Hs IH Hr]; intros o e.
  - split; discriminate.
  - apply Htext.
  - unfold mappedString. cbn [map mapClosest]. unfold compose, bind.
    destruct (Htext (value source) pieces o e) as [Hm Hc].
    split.
    + destruct (map (mappedStringOfText (value source) pieces) o)
        as [[v|]|e']; [apply IH|discriminate|exact Hm].
    + destruct (mapClosest (mappedStringOfText (value source) pieces) o)
        as [[v|]|e']; [apply IH|discriminate|exact Hc].
  - destruct strings as [|first rest]; [discriminate|].
    unfold mappedConcat in Hr. injection Hr as <-.
    cbn [map mapClosest]. unfold routed.
    destruct ((o <? 0) || (o >=? _)); [split; discriminate|].
    destruct (elemAt (first :: rest) _) as [s|] eqn:E;
      [|split; congruence].
    match goal with
    | |- context [match elemAt ?offsets ?ix with _ => _ end] =>
        destruct (elemAt offsets ix); [|split; congruence]
    end.
    apply elemAt_In in E. split; apply (IH s E).
Qed.

Lemma literal_segments (source : string) : forall pieces from,
  forallb isLiteral pieces = true ->
  forall j info, elemAt (fst (resolvePieces source from pieces)) j = Some info ->
                 fromSource info = false.
Proof.
  induction pieces as [|piece rest IH]; intros from Hlit j info E.
  - apply elemAt_bounds in E. unfold arrayLength in E. simpl in E. lia.
  - rewrite resolvePieces_cons in E. cbn [fst] in E.
    simpl in Hlit. apply andb_true_iff in Hlit as [Hp Hrest].
    destruct (elemAt_cons_inv _ _ _ _ E) as [[_ ->]|[_ E']].
    + destruct piece; [reflexivity|discriminate].
    + exact (IH _ Hrest _ _ E').
Qed.

Lemma literal_pieces_unmapped (source : string + MappedString)
      (pieces : list StringChunk) (o : Z) :
  forallb isLiteral pieces = true ->
  mapClosest (mappedString source pieces) o = Ret None.
Proof.
  intros Hlit.
  assert (forall text, mapClosest (mappedStringOfText text pieces) o = Ret None)
    as Htext.
  { intros text. rewrite mappedStringOfText_fields. cbn [mapClosest].
    apply mapClosestOver_unmapped_iff; [apply segments_contiguous|].
    intros j info E _. exact (literal_segments text pieces 0 Hlit j info E). }
  destruct source as [text|m]; unfold mappedString; [apply Htext|].
  cbn [mapClosest]. unfold compose. now rewrite Htext.
Qed.

(** C7. The function that [mappedLineNumbers T] returns throws its
    internal error when [T.mapClosest o] is "unmapped", and otherwise
    returns the line and column that the line index of
    [T.originalString] gives for the resolved offset; an exception of
    [T.mapClosest] itself passes through.  For the library's mapped
    strings the internal error is thrown exactly when [T.mapClosest o]
    is "unmapped".  Over pieces that are all literal it is thrown at
    every offset. *)
Theorem mappedLineNumbers_unmapped_throws (T : MappedString) (o : Z) :
  (mapClosest T o = Ret None ->
   mappedLineNumbers T o
   = Throw (Error "Internal Error: bad offset in mappedLineNumbers")) /\
  (forall n, mapClosest T o = Ret (Some n) ->
             mappedLineNumbers T o = Ret (lineNumbers (originalString T) n)) /\
  (forall e, mapClosest T o = Throw e -> mappedLineNumbers T o = Throw e) /\
  (Produced T ->
   (mappedLineNumbers T o
    = Throw (Error "Internal Error: bad offset in mappedLineNumbers")
    <-> mapClosest T o = Ret None)) /\
  (forall source pieces,
      forallb isLiteral pieces = true ->
      mappedLineNumbers (mappedString source pieces) o
      = Throw (Error "Internal Error: bad offset in mappedLineNumbers")).
Proof.
  unfold mappedLineNumbers, bind.
  split; [now intros ->|]. split; [now intros n ->|].
  split; [now intros e ->|]. split.
  - intros HT. split; [|now intros ->].
    destruct (mapClosest T o) as [[n|]|e] eqn:E;
      [discriminate|reflexivity|].
    destruct (Produced_throws_TypeError T HT o e) as [_ He].
    rewrite (He E). discriminate.
  - intros source pieces Hlit.
    now rewrite (literal_pieces_unmapped source pieces o Hlit).
Qed.

Lemma mappedLineNumbers_unmapped_throws_witness :
  mappedLineNumbers (mappedString (inl "abc") [Literal "x"; Literal "yz"]) 1
  = Throw (Error "Internal Error: bad offset in mappedLineNumbers") /\
  mappedLineNumbers (mappedString (inl "abc") [rangePiece 1 3; Literal "!"]) 2
  = Ret (lineNumbers "abc" 2).
Proof.
  split.
  - apply (proj1 (mappedLineNumbers_unmapped_throws
                    (mappedString (inl "abc") [Literal "x"; Literal "yz"]) 1)).
    reflexivity.
  - apply (proj1 (proj2 (mappedLineNumbers_unmapped_throws
                    (mappedString (inl "abc") [rangePiece 1 3; Literal "!"])
                    2)) 2).
    reflexivity.
Defined.

(** ** The line index *)

Lemma matchAllNewlines_cons (c : ascii) (rest : string) (index : Z) :
  matchAllNewlines (String c rest) index =
  if Ascii.eqb c LF then (index, 1) :: matchAllNewlines rest (index + 1)
  else
    match rest with
    | String c' rest' =>
        if Ascii.eqb c CR && Ascii.eqb c' LF
        then (index, 2) :: matchAllNewlines rest' (index + 2)
        else matchAllNewlines rest (index + 1)
    | EmptyString => []
    end.
Proof. reflexivity. Qed.

Lemma lineFeedEnds_cons (c : ascii) (rest : string) (index : Z) :
  lineFeedEnds (String c rest) index =
  if Ascii.eqb c LF then (index + 1) :: lineFeedEnds rest (index + 1)
  else lineFeedEnds rest (index + 1).
Proof. reflexivity. Qed.

(** A match of the pattern ends just after a line feed, and every line
    feed ends exactly one match, with or without a carriage return
    before it. *)
Lemma matchAllNewlines_ends : forall (n : nat) (text : string) (index : Z),
  (String.length text <= n)%nat ->
  List.map (fun m => snd m + fst m) (matchAllNewlines text index)
  = lineFeedEnds text index.
Proof.
  induction n as [|n IH]; intros text index Hn.
  - destruct text; [reflexivity|simpl in Hn; lia].
  - destruct text as [|c rest]; [reflexivity|].
    simpl String.length in Hn.
    rewrite matchAllNewlines_cons, lineFeedEnds_cons.
    destruct (Ascii.eqb c LF) eqn:E1.
    + cbn [List.map fst snd]. f_equal; [lia|]. apply IH. lia.
    + destruct rest as [|c' rest']; [reflexivity|].
      destruct (Ascii.eqb c CR && Ascii.eqb c' LF) eqn:E2.
      * apply andb_true_iff in E2 as [_ E3].
        rewrite lineFeedEnds_cons, E3. cbn [List.map fst snd].
        simpl String.length in Hn.
        f_equal; [lia|].
        replace (index + 1 + 1) with (index + 2) by lia.
        apply IH. lia.
      * apply IH. lia.
Qed.

Lemma lineOffsets_lineFeedEnds (text : string) :
  lineOffsets text = ([0] ++ lineFeedEnds text 0 ++ [strlen text])%list.
Proof.
  unfold lineOffsets.
  now rewrite (matchAllNewlines_ends (String.length text)).
Qed.

Lemma lineFeedEnds_bounds : forall (text : string) (index e : Z),
  In e (lineFeedEnds text index) -> index < e <= index + strlen text.
Proof.
  unfold strlen. induction text as [|c rest IH]; intros index e H;
    [contradiction|].
  rewrite lineFeedEnds_cons in H. simpl String.length.
  rewrite Nat2Z.inj_succ.
  destruct (Ascii.eqb c LF).
  - destruct H as [<-|H]; [lia|]. specialize (IH _ _ H). lia.
  - specialize (IH _ _ H). lia.
Qed.

Lemma lineFeedEnds_sorted : forall (text : string) (index : Z),
  StronglySorted Z.lt (lineFeedEnds text index).
Proof.
  induction text as [|c rest IH]; intros index; [constructor|].
  rewrite lineFeedEnds_cons. destruct (Ascii.eqb c LF); [|apply IH].
  constructor; [apply IH|].
  apply Forall_forall. intros e H. apply lineFeedEnds_bounds in H. lia.
Qed.

Lemma sorted_with_sentinel (starts : list Z) (sentinel : Z) :
  StronglySorted Z.lt starts ->
  (forall e, In e starts -> e <= sentinel) ->
  StronglySorted Z.le (starts ++ [sentinel]).
Proof.
  induction 1 as [|e rest Hs IH Hall]; intros Hle; simpl.
  - constructor; constructor.
  - constructor.
    + apply IH. intros e' H. apply Hle. now right.
    + apply Forall_app. split.
      * rewrite Forall_forall in Hall |- *.
        intros e' H. specialize (Hall e' H). lia.
      * constructor; [|constructor]. apply Hle. now left.
Qed.

Lemma lineOffsets_sorted (text : string) :
  StronglySorted Z.le (lineOffsets text).
Proof.
  rewrite lineOffsets_lineFeedEnds. simpl.
  pose proof (strlen_nonneg text) as Hlen.
  constructor.
  - apply sorted_with_sentinel; [apply lineFeedEnds_sorted|].
    intros e H. apply lineFeedEnds_bounds in H. lia.
  - apply Forall_app. split.
    + apply Forall_forall. intros e H. apply lineFeedEnds_bounds in H. lia.
    + constructor; [assumption|constructor].
Qed.

(** C9. The table of the line index is 0, then the offset just after
    each line feed (one entry for a line feed whether or not a carriage
    return precedes it, none for a carriage return alone), then the
    length of the text; it is in non-decreasing order.  For an offset in
    [0, length] the lookup finds an entry: [line] is the greatest index
    whose entry is at most the offset, it is not negative, and [column]
    is the offset minus that entry. *)
Theorem lineNumbers_index (text : string) :
  lineOffsets text = ([0] ++ lineFeedEnds text 0 ++ [strlen text])%list /\
  StronglySorted Z.le (lineOffsets text) /\
  (forall o : Z,
      0 <= o <= strlen text ->
      exists lineStart,
        line (lineNumbers text o) = glb (lineOffsets text) o defaultCompare /\
        0 <= line (lineNumbers text o) /\
        elemAt (lineOffsets text) (line (lineNumbers text o))
        = Some lineStart /\
        lineStart <= o /\
        (forall k start', elemAt (lineOffsets text) k = Some start' ->
                          start' <= o -> k <= line (lineNumbers text o)) /\
        column (lineNumbers text o) = Some (o - lineStart)) /\
  lineOffsets ("a" ++ String CR (String LF ("b" ++ String LF "c")))
  = [0; 3; 5; 6] /\
  lineOffsets ("a" ++ String LF ("b" ++ String LF "c")) = [0; 2; 4; 5] /\
  lineOffsets ("a" ++ String CR "b") = [0; 3].
Proof.
  split; [apply lineOffsets_lineFeedEnds|].
  split; [apply lineOffsets_sorted|].
  split; [|repeat split; reflexivity].
  intros o Ho. unfold lineNumbers. cbn [line column].
  assert (elemAt (lineOffsets text) 0 = Some 0) as E0 by reflexivity.
  assert (0 <= defaultCompare o 0) as C0 by (unfold defaultCompare; lia).
  pose proof (glb_greatest defaultCompare o (lineOffsets text) 0 0 E0 C0) as G.
  destruct (glb_found defaultCompare o (lineOffsets text) G)
    as (lineStart & E & C).
  unfold defaultCompare in C.
  exists lineStart. rewrite E.
  repeat split; try assumption; try lia.
  intros k start' Ek Hle.
  apply (glb_greatest defaultCompare o (lineOffsets text) k start' Ek).
  unfold defaultCompare. lia.
Qed.

Lemma lineNumbers_index_witness :
  exists lineStart,
    line (lineNumbers ("ab" ++ String LF "cd") 4)
    = glb (lineOffsets ("ab" ++ String LF "cd")) 4 defaultCompare /\
    0 <= line (lineNumbers ("ab" ++ String LF "cd") 4) /\
    elemAt (lineOffsets ("ab" ++ String LF "cd"))
           (line (lineNumbers ("ab" ++ String LF "cd") 4))
    = Some lineStart /\
    lineStart <= 4 /\
    (forall k start',
        elemAt (lineOffsets ("ab" ++ String LF "cd")) k = Some start' ->
        start' <= 4 -> k <= line (lineNumbers ("ab" ++ String LF "cd") 4)) /\
    column (lineNumbers ("ab" ++ String LF "cd") 4) = Some (4 - lineStart).
Proof.
  apply (proj1 (proj2 (proj2 (lineNumbers_index ("ab" ++ String LF "cd"))))).
  vm_compute. split; discriminate.
Defined.

(** * Further properties *)

(** ** Substrings *)

Lemma append_assoc (a b c : string) :
  ((a ++ b) ++ c = a ++ (b ++ c))%string.
Proof. induction a as [|x a IH]; simpl; [reflexivity|now rewrite IH]. Qed.

Lemma append_empty_r (a : string) : (a ++ "" = a)%string.
Proof. induction a as [|x a IH]; simpl; [reflexivity|now rewrite IH]. Qed.

Lemma length_substring_le : forall (s : string) (n m : nat),
  (String.length (String.substring n m s) <= m)%nat.
Proof.
  induction s as [|c s IH]; intros [|n] [|m]; simpl; try lia.
  - specialize (IH 0%nat m). lia.
  - apply (IH n 0%nat).
  - apply (IH n (S m)).
Qed.

Lemma length_substring : forall (s : string) (n m : nat),
  (n + m <= String.length s)%nat ->
  String.length (String.substring n m s) = m.
Proof.
  induction s as [|c s IH]; intros [|n] [|m]; simpl; intros H; try lia.
  - rewrite (IH 0%nat m); lia.
  - apply (IH n 0%nat). lia.
  - apply (IH n (S m)). lia.
Qed.

Lemma substring_middle (pre piece rest : string) :
  String.substring (String.length pre) (String.length piece)
                   (pre ++ piece ++ rest)
  = piece.
Proof.
  induction pre as [|c pre IH]; simpl; [|exact IH].
  induction piece as [|c piece IH]; simpl.
  - now destruct rest.
  - now rewrite IH.
Qed.

(** Within the bounds of the string, [substring] cuts from [p] to [q]. *)
Lemma substring_in_bounds (s : string) (p q : Z) :
  0 <= p <= q -> q <= strlen s ->
  substring s p q = String.substring (Z.to_nat p) (Z.to_nat (q - p)) s.
Proof.
  intros Hpq Hq. unfold substring, clamp.
  rewrite (Z.max_l p 0), (Z.max_l q 0), (Z.min_l p), (Z.min_l q) by lia.
  rewrite (Z.min_l p q), (Z.max_r p q) by lia. reflexivity.
Qed.

Lemma strlen_substring_in_bounds (s : string) (p q : Z) :
  0 <= p <= q -> q <= strlen s -> strlen (substring s p q) = q - p.
Proof.
  intros Hpq Hq. rewrite substring_in_bounds by assumption.
  unfold strlen in *. rewrite length_substring; lia.
Qed.

Lemma substring_of_parts (pre piece rest : string) :
  substring (pre ++ piece ++ rest) (strlen pre) (strlen pre + strlen piece)
  = piece.
Proof.
  pose proof (strlen_nonneg pre). pose proof (strlen_nonneg piece).
  pose proof (strlen_nonneg rest).
  rewrite substring_in_bounds by (rewrite ?strlen_append; lia).
  replace (Z.to_nat (strlen pre)) with (String.length pre)
    by (unfold strlen; lia).
  replace (Z.to_nat (strlen pre + strlen piece - strlen pre))
    with (String.length piece) by (unfold strlen; lia).
  apply substring_middle.
Qed.

Lemma elemAt_last {T : Type} (array : list T) (x : T) :
  elemAt (array ++ [x]) (arrayLength array) = Some x.
Proof.
  unfold arrayLength. rewrite elemAt_of_nat.
  rewrite nth_error_app2 by lia. now rewrite Nat.sub_diag.
Qed.

Lemma arrayLength_cons {T : Type} (x : T) (array : list T) :
  arrayLength (x :: array) = arrayLength array + 1.
Proof. unfold arrayLength. simpl List.length. lia. Qed.

Lemma arrayLength_app {T : Type} (a b : list T) :
  arrayLength (a ++ b) = arrayLength a + arrayLength b.
Proof. unfold arrayLength. rewrite length_app. lia. Qed.

Lemma arrayLength_map {T U : Type} (f : T -> U) (array : list T) :
  arrayLength (List.map f array) = arrayLength array.
Proof. unfold arrayLength. now rewrite length_map. Qed.

Lemma arrayLength_nonneg {T : Type} (array : list T) : 0 <= arrayLength array.
Proof. unfold arrayLength. lia. Qed.

(** ** Lines and the line index *)

Lemma matchAllNewlines_inOrder : forall (n : nat) (text : string) (index : Z),
  (String.length text <= n)%nat ->
  inOrder index (matchAllNewlines text index) (index + strlen text).
Proof.
  unfold strlen.
  induction n as [|n IH]; intros text index Hn.
  - destruct text; [simpl; lia|simpl in Hn; lia].
  - destruct text as [|c rest]; [simpl; lia|].
    simpl String.length in Hn.
    rewrite matchAllNewlines_cons.
    assert (forall rest' k,
               (String.length rest' <= n)%nat ->
               index + k + Z.of_nat (String.length rest')
               = index + Z.of_nat (String.length (String c rest)) ->
               inOrder (index + k) (matchAllNewlines rest' (index + k))
                       (index + Z.of_nat (String.length (String c rest))))
      as Hrest.
    { intros rest' k Hlen Heq. rewrite <- Heq. now apply IH. }
    destruct (Ascii.eqb c LF).
    + simpl inOrder. repeat split; try lia.
      apply Hrest; [lia|simpl String.length; lia].
    + destruct rest as [|c' rest']; [simpl; lia|].
      destruct (Ascii.eqb c CR && Ascii.eqb c' LF).
      * simpl inOrder. simpl String.length in Hn. repeat split; try lia.
        apply Hrest; [lia|simpl String.length; lia].
      * assert (forall matches p upper,
                   inOrder (p + 1) matches upper -> inOrder p matches upper)
          as Hweak.
        { intros [|m rest0] p upper; simpl; [lia|].
          intros (A & B & C). repeat split; try assumption; lia. }
        apply Hweak. apply Hrest; [lia|simpl String.length; lia].
Qed.

Lemma splitAt_length (text : string) : forall matches p,
  arrayLength (splitAt text p matches) = arrayLength matches + 1.
Proof.
  induction matches as [|m rest IH]; intros p; simpl splitAt.
  - reflexivity.
  - rewrite !arrayLength_cons, IH. reflexivity.
Qed.

(** Each line is the substring of [text] that starts where the table of
    line starts says. *)
Lemma splitAt_at_starts (text : string) : forall matches p k l start',
  0 <= p -> inOrder p matches (strlen text) ->
  elemAt (splitAt text p matches) k = Some l ->
  elemAt (p :: List.map (fun m => snd m + fst m) matches) k = Some start' ->
  0 <= start' /\ start' + strlen l <= strlen text /\
  substring text start' (start' + strlen l) = l.
Proof.
  induction matches as [|m rest IH]; intros p k l start' Hp Hord El Es.
  - simpl in Hord. simpl splitAt in El. simpl List.map in Es.
    destruct (elemAt_cons_inv _ _ _ _ El) as [[-> ->]|[Hk El']].
    + rewrite elemAt_cons_0 in Es. injection Es as <-.
      rewrite strlen_substring_in_bounds by lia.
      replace (p + (strlen text - p)) with (strlen text) by lia.
      repeat split; lia.
    + apply elemAt_bounds in El'. unfold arrayLength in El'. simpl in El'. lia.
  - destruct Hord as (Hpm & Hlen & Hrest).
    assert (fst m + snd m <= strlen text) as Hend.
    { clear - Hrest. revert Hrest. generalize (fst m + snd m).
      induction rest as [|m' rest IH]; intros z; simpl; [lia|].
      intros (A & B & C). specialize (IH _ C). lia. }
    simpl splitAt in El. simpl List.map in Es.
    destruct (elemAt_cons_inv _ _ _ _ El) as [[-> ->]|[Hk El']].
    + rewrite elemAt_cons_0 in Es. injection Es as <-.
      rewrite strlen_substring_in_bounds by lia.
      replace (p + (fst m - p)) with (fst m) by lia.
      repeat split; lia.
    + destruct (elemAt_cons_inv _ _ _ _ Es) as [[-> _]|[_ Es']]; [lia|].
      replace (snd m + fst m) with (fst m + snd m) in Es' by lia.
      apply (IH (fst m + snd m) (k - 1)); try assumption. lia.
Qed.

Lemma lines_from_index (text : string) :
  inOrder 0 (matchAllNewlines text 0) (strlen text).
Proof.
  apply (matchAllNewlines_inOrder (String.length text) text 0). lia.
Qed.

Lemma lineOffsets_count (text : string) :
  arrayLength (lineOffsets text) = arrayLength (lines text) + 1.
Proof.
  unfold lines, lineOffsets.
  rewrite splitAt_length, !arrayLength_app, arrayLength_map.
  change (arrayLength [0]) with 1. change (arrayLength [strlen text]) with 1.
  lia.
Qed.

(** X1. [lines] never returns an empty list, the line index has one
    entry more than there are lines, and the k-th line is the substring
    of the text that starts at the k-th entry of the index. *)
Theorem lines_agree_with_lineOffsets (text : string) :
  1 <= arrayLength (lines text) /\
  arrayLength (lineOffsets text) = arrayLength (lines text) + 1 /\
  forall k l start',
    elemAt (lines text) k = Some l ->
    elemAt (lineOffsets text) k = Some start' ->
    0 <= start' /\ start' + strlen l <= strlen text /\
    substring text start' (start' + strlen l) = l.
Proof.
  unfold lines, lineOffsets.
  rewrite splitAt_length, !arrayLength_app, arrayLength_map.
  pose proof (arrayLength_nonneg (matchAllNewlines text 0)) as Hn.
  change (arrayLength [0]) with 1. change (arrayLength [strlen text]) with 1.
  split; [lia|]. split; [lia|].
  intros k l start' El Es.
  apply (splitAt_at_starts text (matchAllNewlines text 0) 0 k l start');
    [lia|apply lines_from_index|assumption|].
  pose proof (elemAt_bounds _ _ _ El) as B.
  rewrite splitAt_length in B. unfold arrayLength in B.
  simpl app in Es. unfold elemAt in Es |- *.
  destruct (k <? 0); [discriminate|].
  destruct (Z.to_nat k) as [|n] eqn:K; [exact Es|].
  simpl nth_error in Es |- *.
  rewrite nth_error_app1 in Es by (rewrite length_map; lia).
  exact Es.
Qed.

Lemma lines_agree_with_lineOffsets_witness :
  0 <= 3 /\ 3 + strlen "cd" <= strlen ("ab" ++ String LF "cd") /\
  substring ("ab" ++ String LF "cd") 3 (3 + strlen "cd") = "cd".
Proof.
  apply (proj2 (proj2 (lines_agree_with_lineOffsets
                         ("ab" ++ String LF "cd"))) 1 "cd" 3);
    reflexivity.
Defined.

Lemma lineOffsets_entries (text : string) (k x : Z) :
  elemAt (lineOffsets text) k = Some x -> 0 <= x <= strlen text.
Proof.
  intros E. apply elemAt_In in E. rewrite lineOffsets_lineFeedEnds in E.
  pose proof (strlen_nonneg text) as Hlen.
  simpl in E. destruct E as [<-|E]; [lia|].
  apply in_app_or in E. destruct E as [E|[<-|[]]]; [|lia].
  apply lineFeedEnds_bounds in E. lia.
Qed.

Lemma lineOffsets_sentinel (text : string) :
  elemAt (lineOffsets text) (arrayLength (lines text)) = Some (strlen text).
Proof.
  unfold lineOffsets, lines. rewrite splitAt_length.
  change ([0] ++ List.map (fun m => snd m + fst m) (matchAllNewlines text 0)
              ++ [strlen text])%list
    with (0 :: (List.map (fun m => snd m + fst m) (matchAllNewlines text 0)
                  ++ [strlen text]))%list.
  rewrite elemAt_cons_succ by apply arrayLength_nonneg.
  rewrite <- (arrayLength_map (fun m => snd m + fst m)).
  apply elemAt_last.
Qed.

(** The start after a line is at most two characters past its end. *)
Lemma splitAt_next_start (text : string) : forall matches p k l s s',
  0 <= p -> inOrder p matches (strlen text) ->
  elemAt (splitAt text p matches) k = Some l ->
  elemAt (p :: List.map (fun m => snd m + fst m) matches ++ [strlen text]) k
  = Some s ->
  elemAt (p :: List.map (fun m => snd m + fst m) matches ++ [strlen text])
         (k + 1) = Some s' ->
  s + strlen l <= s' <= s + strlen l + 2.
Proof.
  induction matches as [|m rest IH]; intros p k l s s' Hp Hord El Es Es'.
  - simpl in Hord. simpl splitAt in El. simpl List.map in Es, Es'.
    destruct (elemAt_cons_inv _ _ _ _ El) as [[-> ->]|[Hk El']].
    + rewrite elemAt_cons_0 in Es. injection Es as <-.
      rewrite elemAt_cons_succ in Es' by lia. simpl app in Es'.
      rewrite elemAt_cons_0 in Es'. injection Es' as <-.
      rewrite strlen_substring_in_bounds by lia. lia.
    + apply elemAt_bounds in El'. unfold arrayLength in El'. simpl in El'. lia.
  - destruct Hord as (Hpm & Hlen & Hrest).
    assert (fst m + snd m <= strlen text) as Hend.
    { clear - Hrest. revert Hrest. generalize (fst m + snd m).
      induction rest as [|m' rest IH]; intros z; simpl; [lia|].
      intros (A & B & C). specialize (IH _ C). lia. }
    simpl splitAt in El. simpl List.map in Es, Es'.
    pose proof (elemAt_bounds _ _ _ El) as Bk.
    rewrite elemAt_cons_succ in Es' by lia.
    destruct (elemAt_cons_inv _ _ _ _ El) as [[-> ->]|[Hk El']].
    + rewrite elemAt_cons_0 in Es. injection Es as <-.
      simpl app in Es'. rewrite elemAt_cons_0 in Es'. injection Es' as <-.
      rewrite strlen_substring_in_bounds by lia. lia.
    + destruct (elemAt_cons_inv _ _ _ _ Es) as [[-> _]|[_ Es1]]; [lia|].
      simpl app in Es1, Es'.
      replace (snd m + fst m) with (fst m + snd m) in Es1, Es' by lia.
      apply (IH (fst m + snd m) (k - 1) l s s'); try assumption; [lia|].
      replace (k - 1 + 1) with k by lia. exact Es'.
Qed.

(** X2. What the line index answers in each range of offsets.  Below
    0: line -1 and a column that is not a number.  Inside the text: a
    line that [lines] has, and a column from 0 to the length of that
    line plus one (the offsets of its terminator).  From the length of
    the text on: the number of lines, one past the last line, with the
    column counted from the end of the text. *)
Theorem lineNumbers_ranges (text : string) (o : Z) :
  (o < 0 -> lineNumbers text o = {| line := -1; column := None |}) /\
  (0 <= o < strlen text ->
   exists l c,
     elemAt (lines text) (line (lineNumbers text o)) = Some l /\
     column (lineNumbers text o) = Some c /\
     0 <= c <= strlen l + 1) /\
  (strlen text <= o ->
   lineNumbers text o
   = {| line := arrayLength (lines text);
        column := Some (o - strlen text) |}).
Proof.
  pose proof (glb_range defaultCompare o (lineOffsets text)) as R.
  pose proof (lineOffsets_sentinel text) as Hs.
  pose proof (lineOffsets_count text) as Hn.
  split; [|split].
  - intros Hneg. unfold lineNumbers.
    destruct (glb_spec defaultCompare o (lineOffsets text))
      as [[-> _]|(x & E & C & _)]; [reflexivity|].
    apply lineOffsets_entries in E. unfold defaultCompare in C. lia.
  - intros Ho. unfold lineNumbers. cbn [line column].
    assert (elemAt (lineOffsets text) 0 = Some 0) as E0 by reflexivity.
    assert (0 <= defaultCompare o 0) as C0 by (unfold defaultCompare; lia).
    pose proof (glb_greatest defaultCompare o (lineOffsets text) 0 0 E0 C0) as G.
    destruct (glb_spec defaultCompare o (lineOffsets text))
      as [[Hg _]|(s & E & C & Hmax)]; [lia|].
    unfold defaultCompare in C.
    assert (glb (lineOffsets text) o defaultCompare
            <> arrayLength (lines text)) as Hne.
    { intros Heq. rewrite Heq, Hs in E. injection E as <-. lia. }
    destruct (elemAt_in_range (lines text)
                (glb (lineOffsets text) o defaultCompare) ltac:(lia))
      as [l El].
    destruct (elemAt_in_range (lineOffsets text)
                (glb (lineOffsets text) o defaultCompare + 1) ltac:(lia))
      as [s' Es'].
    pose proof (Hmax (glb (lineOffsets text) o defaultCompare + 1) s'
                     ltac:(lia) Es') as Hgt.
    unfold defaultCompare in Hgt.
    exists l, (o - s). rewrite E. split; [assumption|]. split; [reflexivity|].
    pose proof (splitAt_next_start text (matchAllNewlines text 0) 0 _ l s s'
                  ltac:(lia) (lines_from_index text) El E Es').
    lia.
  - intros Ho. unfold lineNumbers.
    assert (0 <= defaultCompare o (strlen text)) as C
        by (unfold defaultCompare; lia).
    pose proof (glb_greatest defaultCompare o (lineOffsets text) _ _ Hs C) as G.
    assert (glb (lineOffsets text) o defaultCompare = arrayLength (lines text))
      as -> by lia.
    now rewrite Hs.
Qed.

Lemma lineNumbers_ranges_witness :
  lineNumbers ("ab" ++ String LF "cd") 5
  = {| line := arrayLength (lines ("ab" ++ String LF "cd"));
       column := Some (5 - strlen ("ab" ++ String LF "cd")) |}.
Proof.
  apply (proj2 (proj2 (lineNumbers_ranges ("ab" ++ String LF "cd") 5))).
  vm_compute. discriminate.
Defined.

(** ** Splitting into lines, character by character *)

Lemma splitAt_splitFrom : forall (n : nat) (suffix : string),
  (String.length suffix <= n)%nat ->
  forall pre piece : string,
    splitAt (pre ++ piece ++ suffix) (strlen pre)
            (matchAllNewlines suffix (strlen pre + strlen piece))
    = splitFrom suffix piece.
Proof.
  induction n as [|n IH]; intros suffix Hn pre piece.
  - destruct suffix; [|simpl in Hn; lia].
    simpl. rewrite !strlen_append. change (strlen "") with 0.
    rewrite Z.add_0_r. now rewrite substring_of_parts.
  - destruct suffix as [|c rest].
    { simpl. rewrite !strlen_append. change (strlen "") with 0.
      rewrite Z.add_0_r. now rewrite substring_of_parts. }
    simpl String.length in Hn.
    assert (forall pre' piece' rest' k1 k2,
               (String.length rest' <= n)%nat ->
               (pre ++ piece ++ String c rest = pre' ++ piece' ++ rest')%string ->
               k1 = strlen pre' -> k2 = strlen pre' + strlen piece' ->
               splitAt (pre ++ piece ++ String c rest) k1
                       (matchAllNewlines rest' k2)
               = splitFrom rest' piece') as Hstep.
    { intros pre' piece' rest' k1 k2 Hlen Heq -> ->. rewrite Heq.
      now apply IH. }
    rewrite matchAllNewlines_cons. simpl splitFrom.
    destruct (Ascii.eqb c LF).
    + simpl splitAt. cbn [fst snd]. rewrite substring_of_parts. f_equal.
      apply (Hstep (pre ++ piece ++ String c "")%string ""%string);
        [lia| | |];
        [|rewrite ?strlen_append; change (strlen "") with 0;
          change (strlen (String c "")) with 1; lia..].
      simpl. now rewrite !append_assoc.
    + destruct rest as [|c' rest'].
      * simpl splitAt.
        replace (pre ++ piece ++ String c "")%string
          with (pre ++ (piece ++ String c "") ++ "")%string
          by now rewrite append_empty_r.
        rewrite !strlen_append. change (strlen "") with 0.
        rewrite Z.add_0_r, <- strlen_append.
        now rewrite substring_of_parts.
      * simpl String.length in Hn.
        destruct (Ascii.eqb c CR && Ascii.eqb c' LF).
        -- simpl splitAt. cbn [fst snd]. rewrite substring_of_parts. f_equal.
           apply (Hstep (pre ++ piece ++ String c (String c' ""))%string
                        ""%string);
             [lia| | |];
             [|rewrite ?strlen_append; change (strlen "") with 0;
               change (strlen (String c (String c' ""))) with 2; lia..].
           simpl. now rewrite !append_assoc.
        -- apply (Hstep pre (piece ++ String c "")%string);
             [simpl; lia| |reflexivity
              |rewrite strlen_append; change (strlen (String c "")) with 1;
               lia].
           now rewrite append_assoc.
Qed.

Lemma lines_splitFrom (text : string) : lines text = splitFrom text "".
Proof.
  exact (splitAt_splitFrom (String.length text) text (le_n _) "" "").
Qed.

Lemma splitFrom_nonempty : forall text piece, splitFrom text piece <> [].
Proof.
  induction text as [|c rest IH]; intros piece; simpl; [discriminate|].
  destruct (Ascii.eqb c LF); [discriminate|].
  destruct rest as [|c' rest']; [discriminate|].
  destruct (Ascii.eqb c CR && Ascii.eqb c' LF); [discriminate|apply IH].
Qed.

Lemma joinLines_cons (x : string) (list : list string) :
  list <> [] -> joinLines (x :: list) = (x ++ String LF (joinLines list))%string.
Proof.
  intros H. destruct list as [|y rest]; [contradiction|reflexivity].
Qed.

Lemma joinLines_splitFrom : forall text piece,
  containsCRLF text = false ->
  joinLines (splitFrom text piece) = (piece ++ text)%string.
Proof.
  induction text as [|c rest IH]; intros piece H.
  - simpl. now rewrite append_empty_r.
  - simpl containsCRLF in H. apply orb_false_iff in H as [Hpair Hrest].
    simpl splitFrom. destruct (Ascii.eqb c LF) eqn:E.
    + apply Ascii.eqb_eq in E. subst c.
      rewrite joinLines_cons by apply splitFrom_nonempty.
      now rewrite IH.
    + destruct rest as [|c' rest']; [reflexivity|].
      rewrite Hpair. rewrite IH by assumption. now rewrite append_assoc.
Qed.

(** The number of line feeds. *)
Lemma lineFeedEnds_length_index : forall text i j,
  List.length (lineFeedEnds text i) = List.length (lineFeedEnds text j).
Proof.
  induction text as [|c rest IH]; intros i j; [reflexivity|].
  rewrite !lineFeedEnds_cons. destruct (Ascii.eqb c LF); simpl;
    now rewrite (IH (i + 1) (j + 1)).
Qed.

Lemma lineFeedEnds_length_append : forall a b i,
  List.length (lineFeedEnds (a ++ b) i)
  = (List.length (lineFeedEnds a i) + List.length (lineFeedEnds b i))%nat.
Proof.
  induction a as [|c a IH]; intros b i; [reflexivity|].
  change (String c a ++ b)%string with (String c (a ++ b)%string).
  rewrite !lineFeedEnds_cons.
  destruct (Ascii.eqb c LF); simpl; rewrite IH;
    now rewrite (lineFeedEnds_length_index b (i + 1) i).
Qed.

Lemma lineFeedEnds_length_joinLines : forall (n : nat) (text piece : string),
  (String.length text <= n)%nat ->
  List.length (lineFeedEnds (joinLines (splitFrom text piece)) 0)
  = (List.length (lineFeedEnds piece 0)
     + List.length (lineFeedEnds text 0))%nat.
Proof.
  assert (forall piece,
             List.length (lineFeedEnds (joinLines (splitFrom "" piece)) 0)
             = (List.length (lineFeedEnds piece 0)
                + List.length (lineFeedEnds "" 0))%nat) as Hempty.
  { intros piece. change (joinLines (splitFrom "" piece)) with piece.
    change (lineFeedEnds "" 0) with (@nil Z). simpl List.length. lia. }
  assert (forall x i, List.length (lineFeedEnds (String LF x) i)
                      = S (List.length (lineFeedEnds x 0))) as Hfeed.
  { intros x i. rewrite lineFeedEnds_cons.
    change (Ascii.eqb LF LF) with true. simpl List.length.
    now rewrite (lineFeedEnds_length_index x (i + 1) 0). }
  assert (forall c x i, Ascii.eqb c LF = false ->
                        List.length (lineFeedEnds (String c x) i)
                        = List.length (lineFeedEnds x 0)) as Hother.
  { intros c x i E. rewrite lineFeedEnds_cons, E.
    apply lineFeedEnds_length_index. }
  induction n as [|n IH]; intros text piece Hn.
  - destruct text; [apply Hempty|simpl in Hn; lia].
  - destruct text as [|c rest]; [apply Hempty|].
    simpl String.length in Hn. simpl splitFrom.
    destruct (Ascii.eqb c LF) eqn:E.
    + apply Ascii.eqb_eq in E. subst c.
      rewrite joinLines_cons by apply splitFrom_nonempty.
      rewrite lineFeedEnds_length_append, !Hfeed, IH by lia.
      change (lineFeedEnds "" 0) with (@nil Z). simpl List.length. lia.
    + rewrite (Hother c rest 0 E).
      destruct rest as [|c' rest'].
      * change (joinLines [(piece ++ String c "")%string])
          with (piece ++ String c "")%string.
        rewrite lineFeedEnds_length_append, (Hother c "" 0 E). reflexivity.
      * simpl String.length in Hn.
        destruct (Ascii.eqb c CR && Ascii.eqb c' LF) eqn:P.
        -- apply andb_true_iff in P as [_ P].
           apply Ascii.eqb_eq in P. subst c'.
           rewrite joinLines_cons by apply splitFrom_nonempty.
           rewrite lineFeedEnds_length_append, !Hfeed, IH by lia.
           change (lineFeedEnds "" 0) with (@nil Z). simpl List.length. lia.
        -- rewrite IH by (simpl; lia).
           rewrite lineFeedEnds_length_append, (Hother c "" 0 E).
           change (lineFeedEnds "" 0) with (@nil Z). simpl List.length. lia.
Qed.

Lemma lines_count (text : string) :
  arrayLength (lines text)
  = Z.of_nat (List.length (lineFeedEnds text 0)) + 1.
Proof.
  unfold lines. rewrite splitAt_length. unfold arrayLength.
  rewrite <- (matchAllNewlines_ends (String.length text) text 0) by lia.
  now rewrite length_map.
Qed.

(** X3. [normalizeNewlines] returns a text with no carriage return
    before a line feed unchanged, lone carriage returns included; and on
    every text it keeps the number of lines. *)
Theorem normalizeNewlines_keeps (text : string) :
  (containsCRLF text = false -> normalizeNewlines text = text) /\
  arrayLength (lines (normalizeNewlines text)) = arrayLength (lines text).
Proof.
  split.
  - intros H. unfold normalizeNewlines.
    now rewrite lines_splitFrom, joinLines_splitFrom.
  - rewrite !lines_count. unfold normalizeNewlines.
    rewrite lines_splitFrom.
    rewrite (lineFeedEnds_length_joinLines (String.length text)) by lia.
    change (lineFeedEnds "" 0) with (@nil Z). simpl List.length. lia.
Qed.

Lemma normalizeNewlines_keeps_witness :
  normalizeNewlines ("a" ++ String CR ("b" ++ String LF "c"))
  = ("a" ++ String CR ("b" ++ String LF "c"))%string.
Proof.
  apply (proj1 (normalizeNewlines_keeps
                  ("a" ++ String CR ("b" ++ String LF "c")))).
  reflexivity.
Defined.

Lemma containsLF_append : forall a b,
  containsLF (a ++ b) = containsLF a || containsLF b.
Proof.
  induction a as [|c a IH]; intros b; simpl; [reflexivity|].
  now rewrite IH, orb_assoc.
Qed.

Lemma splitFrom_no_line_feed : forall (n : nat) (text piece : string),
  (String.length text <= n)%nat -> containsLF piece = false ->
  Forall (fun l => containsLF l = false) (splitFrom text piece).
Proof.
  induction n as [|n IH]; intros text piece Hn Hp.
  - destruct text; [|simpl in Hn; lia]. simpl. now constructor.
  - destruct text as [|c rest]; [simpl; now constructor|].
    simpl String.length in Hn. simpl splitFrom.
    assert (Ascii.eqb c LF = false ->
            containsLF (piece ++ String c "") = false) as Hc.
    { intros E. rewrite containsLF_append, Hp. simpl. now rewrite E. }
    destruct (Ascii.eqb c LF) eqn:E.
    + constructor; [assumption|]. apply IH; [lia|reflexivity].
    + destruct rest as [|c' rest']; [constructor; auto|].
      simpl String.length in Hn.
      destruct (Ascii.eqb c CR && Ascii.eqb c' LF).
      * constructor; [assumption|]. apply IH; [lia|reflexivity].
      * apply IH; [simpl; lia|auto].
Qed.

Lemma splitFrom_single_line : forall text piece,
  containsLF text = false -> splitFrom text piece = [(piece ++ text)%string].
Proof.
  induction text as [|c rest IH]; intros piece H.
  - simpl. now rewrite append_empty_r.
  - simpl containsLF in H. apply orb_false_iff in H as [Hc Hrest].
    simpl splitFrom. rewrite Hc.
    destruct rest as [|c' rest']; [reflexivity|].
    assert (Ascii.eqb c' LF = false) as ->
        by (simpl in Hrest; now apply orb_false_iff in Hrest).
    rewrite andb_false_r, IH by assumption. now rewrite append_assoc.
Qed.

(** X4. No line that [lines] returns contains a line feed, and a text
    without a line feed is its own single line. *)
Theorem lines_have_no_line_feed (text : string) :
  Forall (fun l => containsLF l = false) (lines text) /\
  (containsLF text = false -> lines text = [text]).
Proof.
  rewrite lines_splitFrom. split.
  - apply (splitFrom_no_line_feed (String.length text)); [lia|reflexivity].
  - intros H. now rewrite splitFrom_single_line.
Qed.

Lemma lines_have_no_line_feed_witness :
  lines ("a" ++ String CR "b") = [("a" ++ String CR "b")%string].
Proof.
  apply (proj2 (lines_have_no_line_feed ("a" ++ String CR "b"))).
  reflexivity.
Defined.

(** ** Characters under the forward map *)

Lemma charAt_append_left (a b : string) (o : Z) :
  0 <= o < strlen a -> charAt (a ++ b) o = charAt a o.
Proof.
  unfold charAt, strlen. intros H.
  destruct (o <? 0) eqn:N; [apply Z.ltb_lt in N; lia|].
  symmetry. apply append_correct1. lia.
Qed.

Lemma charAt_append_right (a b : string) (o : Z) :
  0 <= o -> charAt (a ++ b) (strlen a + o) = charAt b o.
Proof.
  unfold charAt, strlen. intros H.
  destruct (o <? 0) eqn:N; [apply Z.ltb_lt in N; lia|].
  destruct (Z.of_nat (String.length a) + o <? 0) eqn:N';
    [apply Z.ltb_lt in N'; lia|].
  replace (Z.to_nat (Z.of_nat (String.length a) + o))
    with (Z.to_nat o + String.length a)%nat by lia.
  symmetry. apply append_correct2.
Qed.

(** The length of a substring whose range is ordered, and its
    characters. *)
Lemma strlen_substring_ordered (s : string) (a b : Z) :
  0 <= a <= b ->
  strlen (substring s a b) = Z.min b (strlen s) - Z.min a (strlen s).
Proof.
  intros H. pose proof (strlen_nonneg s) as Hs. unfold substring, clamp.
  rewrite (Z.max_l a 0), (Z.max_l b 0) by lia.
  rewrite (Z.min_l (Z.min a (strlen s))), (Z.max_r (Z.min a (strlen s))) by lia.
  unfold strlen in *. rewrite length_substring; lia.
Qed.

Lemma charAt_substring (s : string) (a b local : Z) :
  0 <= a <= b -> 0 <= local < strlen (substring s a b) ->
  charAt (substring s a b) local = charAt s (a + local).
Proof.
  intros H Hl. rewrite strlen_substring_ordered in Hl by assumption.
  pose proof (strlen_nonneg s) as Hs.
  unfold substring, clamp.
  rewrite (Z.max_l a 0), (Z.max_l b 0) by lia.
  rewrite (Z.min_l (Z.min a (strlen s))), (Z.max_r (Z.min a (strlen s))) by lia.
  rewrite (Z.min_l a) by lia. rewrite (Z.min_l a) in Hl by lia.
  unfold charAt.
  destruct (local <? 0) eqn:N; [apply Z.ltb_lt in N; lia|].
  destruct (a + local <? 0) eqn:N'; [apply Z.ltb_lt in N'; lia|].
  rewrite substring_correct1 by lia.
  f_equal. lia.
Qed.

(** A segment of the table stands for one of the pieces, and the value
    has the text of that piece at the segment's offset. *)
Lemma resolvePieces_segment (source : string) : forall pieces from k info,
  elemAt (fst (resolvePieces source from pieces)) k = Some info ->
  exists piece,
    In piece pieces /\ describes source piece info /\
    forall local,
      0 <= local < length info ->
      charAt (join (snd (resolvePieces source from pieces)))
             (offset info - from + local)
      = charAt (resolvedText source piece) local.
Proof.
  induction pieces as [|piece rest IH]; intros from k info E.
  - apply elemAt_bounds in E. unfold arrayLength in E. simpl in E. lia.
  - rewrite resolvePieces_cons in E |- *. cbn [fst snd] in E |- *.
    destruct (resolvePiece_info source from piece) as [Hoff Hdesc].
    pose proof Hdesc as [Hlen _].
    rewrite join_cons, resolvePiece_text.
    destruct (elemAt_cons_inv _ _ _ _ E) as [[_ ->]|[Hk E']].
    + exists piece. split; [now left|]. split; [assumption|].
      intros local Hl. rewrite Hoff.
      replace (from - from + local) with local by lia.
      apply charAt_append_left. lia.
    + destruct (IH _ _ _ E') as (piece' & Hin & Hdesc' & Hchars).
      exists piece'. split; [now right|]. split; [assumption|].
      intros local Hl. rewrite <- (Hchars local Hl).
      destruct (contiguous_elem _ _ _ _
                  (resolvePieces_contiguous source rest _) E') as (Hge & _).
      rewrite Hlen in Hge |- *.
      replace (offset info - from + local)
        with (strlen (resolvedText source piece)
              + (offset info - (from + strlen (resolvedText source piece))
                 + local)) by lia.
      apply charAt_append_right. lia.
Qed.

Lemma forallb_In {T : Type} (f : T -> bool) (list : list T) (x : T) :
  forallb f list = true -> In x list -> f x = true.
Proof. intros H Hin. rewrite forallb_forall in H. now apply H. Qed.

(** Over a string source and ordered pieces, a defined [map] lies in
    the value and in the source, on the same character. *)
Lemma mappedStringOfText_faithful (source : string)
      (pieces : list StringChunk) (o v : Z) :
  forallb orderedPiece pieces = true ->
  map (mappedStringOfText source pieces) o = Ret (Some v) ->
  0 <= v < strlen source /\
  charAt (value (mappedStringOfText source pieces)) o = charAt source v.
Proof.
  intros Hord. rewrite mappedStringOfText_fields. cbn [map value].
  intros H.
  destruct (mapOver_defined _ _ _ H) as (info & r & E & F & R & Hin & ->).
  destruct (resolvePieces_segment source pieces 0 _ info E)
    as (piece & Hp & [Hlen Hkind] & Hchars).
  destruct piece as [p|r']; destruct Hkind as [F' R']; [congruence|].
  assert (r' = r) as -> by congruence.
  pose proof (forallb_In _ _ _ Hord Hp) as Ho. simpl in Ho.
  apply andb_true_iff in Ho as [H0 H1].
  apply Z.leb_le in H0. apply Z.leb_le in H1.
  simpl resolvedText in Hlen, Hchars.
  pose proof (strlen_nonneg source) as Hs.
  split.
  - rewrite Hlen, strlen_substring_ordered in Hin by lia. lia.
  - specialize (Hchars (o - offset info) Hin).
    replace (offset info - 0 + (o - offset info)) with o in Hchars by lia.
    unfold resultList. rewrite Hchars.
    apply charAt_substring; [lia|]. now rewrite <- Hlen.
Qed.

(** X5. Through [asMappedString] and any chain of [mappedString] with
    ordered range pieces (0 <= start <= end), wherever [map o] is
    defined the character of [value] at [o] is the character of
    [originalString] at [map o]. *)
Theorem map_keeps_characters (m : MappedString) :
  Derived m ->
  forall o v, map m o = Ret (Some v) ->
              charAt (value m) o = charAt (originalString m) v.
Proof.
  induction 1 as [str|source pieces Hord|source pieces Hs IH Hord];
    intros o v H.
  - simpl in H. injection H as <-. reflexivity.
  - destruct (mappedStringOfText_faithful source pieces o v Hord H) as [_ Hc].
    unfold mappedString. rewrite Hc.
    now rewrite mappedStringOfText_fields.
  - unfold mappedString in H |- *. cbn [map value originalString] in H |- *.
    unfold compose, bind in H.
    destruct (map (mappedStringOfText (value source) pieces) o)
      as [[v1|]|e] eqn:N; try discriminate.
    destruct (mappedStringOfText_faithful _ _ _ _ Hord N) as [_ Hc].
    rewrite Hc. now apply IH.
Qed.

Lemma map_keeps_characters_witness :
  charAt (value (mappedString
                   (inr (mappedString (inl "abcdef")
                           [rangePiece 2 5; Literal "-X-"; rangePiece 0 2]))
                   [Literal ">"; rangePiece 6 8])) 2
  = charAt (originalString
              (mappedString
                 (inr (mappedString (inl "abcdef")
                         [rangePiece 2 5; Literal "-X-"; rangePiece 0 2]))
                 [Literal ">"; rangePiece 6 8])) 1.
Proof.
  apply map_keeps_characters.
  - apply Derived_mapped; [apply Derived_text|]; reflexivity.
  - reflexivity.
Defined.

(** ** Results within the source *)

Lemma mapClosestLoop_defined (table : list OffsetInfo) (o firstIx : Z) :
  forall (n : nat) (v : Z),
    mapClosestLoop table o firstIx None n = Ret (Some v) ->
    exists j info r,
      elemAt table j = Some info /\ fromSource info = true /\
      range info = Some r /\
      ((j = firstIx /\ o - offset info < length info /\
        v = start r + (o - offset info))
       \/ v = end_ r - 1).
Proof.
  induction n as [|n IH]; intros v H; [discriminate|].
  simpl mapClosestLoop in H.
  destruct (elemAt table (Z.of_nat n)) as [info|] eqn:E; [|discriminate].
  destruct (fromSource info) eqn:F; simpl in H; [|now apply IH].
  destruct (range info) as [r|] eqn:R; [|discriminate].
  exists (Z.of_nat n), info, r. repeat split; try assumption.
  destruct (Z.of_nat n =? firstIx) eqn:J.
  - apply Z.eqb_eq in J.
    destruct (o - offset info <? length info) eqn:L.
    + apply Z.ltb_lt in L. injection H as <-. left. auto.
    + injection H as <-. now right.
  - injection H as <-. now right.
Qed.

Lemma mapClosestOver_defined (table : list OffsetInfo) (o v : Z) :
  mapClosestOver table o = Ret (Some v) ->
  exists info r,
    In info table /\ fromSource info = true /\ range info = Some r /\
    ((0 <= o - offset info < length info /\ v = start r + (o - offset info))
     \/ v = end_ r - 1).
Proof.
  unfold mapClosestOver.
  destruct ((arrayLength table =? 0) || (o <? 0)); [discriminate|].
  intros H.
  destruct (mapClosestLoop_defined _ _ _ _ _ H)
    as (j & info & r & E & F & R & Hv).
  exists info, r. split; [now apply elemAt_In in E|].
  repeat split; try assumption.
  destruct Hv as [(Hj & Hlt & Hv)|Hv]; [left|now right].
  subst j v.
  pose proof (elemAt_bounds _ _ _ E) as B.
  destruct (glb_found compareOffset o table ltac:(lia)) as (x & Ex & C).
  rewrite E in Ex. injection Ex as <-. unfold compareOffset in C.
  repeat split; lia.
Qed.

Lemma segment_of_range_piece (source : string) (pieces : list StringChunk)
      (info : OffsetInfo) (r : Range) :
  In info (segments source pieces) -> fromSource info = true ->
  range info = Some r ->
  In (FromRange r) pieces /\
  length info = strlen (substring source (start r) (end_ r)).
Proof.
  intros Hin F R. apply In_nth_error in Hin as [n E].
  rewrite <- elemAt_of_nat in E.
  destruct (resolvePieces_segment source pieces 0 _ info E)
    as (piece & Hp & [Hlen Hkind] & _).
  destruct piece as [p|r']; destruct Hkind as [F' R']; [congruence|].
  assert (r' = r) as -> by congruence. now split.
Qed.

(** X6. Over a string source.  With ordered range pieces, a defined
    [map o] has [o] inside the value and its result inside the source.
    With range pieces that are not empty and lie within the source,
    every defined [mapClosest] is an offset of the source too, so that
    the line index is asked inside its text. *)
Theorem mappedString_results_in_source (source : string)
        (pieces : list StringChunk) (o v : Z) :
  (forallb orderedPiece pieces = true ->
   map (mappedString (inl source) pieces) o = Ret (Some v) ->
   0 <= o < strlen (value (mappedString (inl source) pieces)) /\
   0 <= v < strlen source) /\
  (forallb (inBoundsPiece source) pieces = true ->
   mapClosest (mappedString (inl source) pieces) o = Ret (Some v) ->
   0 <= v < strlen source).
Proof.
  split.
  - intros Hord H. split.
    + destruct (Z_lt_ge_dec o 0) as [Neg|Pos];
        [rewrite mappedString_map_outside in H by lia; discriminate|].
      destruct (Z_lt_ge_dec
                  o (strlen (value (mappedString (inl source) pieces))))
        as [Hinside|Houtside]; [lia|].
      rewrite mappedString_map_outside in H by lia. discriminate.
    + exact (proj1 (mappedStringOfText_faithful source pieces o v Hord H)).
  - intros Hb. unfold mappedString. rewrite mappedStringOfText_fields.
    cbn [mapClosest]. intros H.
    destruct (mapClosestOver_defined _ _ _ H) as (info & r & Hin & F & R & Hv).
    destruct (segment_of_range_piece source pieces info r Hin F R)
      as [Hp Hlen].
    pose proof (forallb_In _ _ _ Hb Hp) as Hr. simpl in Hr.
    apply andb_true_iff in Hr as [Hr H2]. apply andb_true_iff in Hr as [H0 H1].
    apply Z.leb_le in H0. apply Z.ltb_lt in H1. apply Z.leb_le in H2.
    rewrite strlen_substring_in_bounds in Hlen by lia.
    destruct Hv as [[Hl Hv]|Hv]; lia.
Qed.

Lemma mappedString_results_in_source_witness :
  0 <= 4 < strlen "hello world".
Proof.
  apply (proj2 (mappedString_results_in_source
                  "hello world"
                  [Literal "prefix-literal"; rangePiece 0 5;
                   Literal "suffix-literal"] 25 4));
    reflexivity.
Defined.

(** ** Offsets inside the value *)

Lemma contiguous_next (table : list OffsetInfo) : forall from k a b,
  contiguous from table ->
  elemAt table k = Some a -> elemAt table (k + 1) = Some b ->
  offset b = offset a + length a.
Proof.
  induction table as [|first rest IH]; intros from k a b H Ea Eb.
  - apply elemAt_bounds in Ea. unfold arrayLength in Ea. simpl in Ea. lia.
  - destruct H as (Hoff & Hlen & _ & Hrest).
    pose proof (elemAt_bounds _ _ _ Ea) as Bk.
    rewrite elemAt_cons_succ in Eb by lia.
    destruct (elemAt_cons_inv _ _ _ _ Ea) as [[-> ->]|[Hk Ea']].
    + destruct rest as [|second rest]; [discriminate|].
      rewrite elemAt_cons_0 in Eb. injection Eb as <-.
      destruct Hrest as (Hoff' & _). lia.
    + apply (IH _ (k - 1) a b Hrest Ea').
      now replace (k - 1 + 1) with k by lia.
Qed.

(** X7. Over a string source, an offset inside the value has a covering
    segment and lies strictly within it: the check of [map] on the
    length of the segment never decides there, and [map] is "unmapped"
    exactly when the covering segment is literal. *)
Theorem mappedString_offsets_covered (source : string)
        (pieces : list StringChunk) (o : Z) :
  0 <= o < strlen (value (mappedString (inl source) pieces)) ->
  exists info,
    elemAt (segments source pieces)
           (glb (segments source pieces) o compareOffset) = Some info /\
    offset info <= o < offset info + length info /\
    (map (mappedString (inl source) pieces) o = Ret None <->
     fromSource info = false).
Proof.
  unfold mappedString. rewrite <- segments_end, mappedStringOfText_fields.
  cbn [map]. intros Ho.
  pose proof (segments_contiguous source pieces) as Hc.
  set (table := segments source pieces) in *.
  assert (arrayLength table <> 0) as Hne.
  { destruct table; [simpl in Ho; lia|rewrite arrayLength_cons].
    pose proof (arrayLength_nonneg table). lia. }
  pose proof (arrayLength_nonneg table) as Hlen.
  destruct (elemAt_in_range table 0 ltac:(lia)) as [first E0].
  assert (offset first = 0) as Hfirst.
  { destruct table as [|x rest]; [discriminate|].
    rewrite elemAt_cons_0 in E0. injection E0 as <-. now destruct Hc. }
  assert (0 <= compareOffset o first) as C0
      by (unfold compareOffset; lia).
  pose proof (glb_greatest compareOffset o table 0 first E0 C0) as G.
  pose proof (glb_range compareOffset o table) as R.
  destruct (glb_spec compareOffset o table)
    as [[Hg _]|(info & E & C & Hmax)]; [lia|].
  unfold compareOffset in C.
  exists info. split; [assumption|].
  assert (o < offset info + length info) as Hup.
  { destruct (Z.eq_dec (glb table o compareOffset) (arrayLength table - 1))
      as [Hlast|Hmid].
    - rewrite Hlast in E. rewrite (contiguous_last _ _ _ Hc E). lia.
    - destruct (elemAt_in_range table (glb table o compareOffset + 1)
                  ltac:(lia)) as [next En].
      pose proof (Hmax (glb table o compareOffset + 1) next ltac:(lia) En)
        as Hgt.
      unfold compareOffset in Hgt.
      rewrite (contiguous_next _ _ _ _ _ Hc E En) in Hgt. lia. }
  split; [lia|].
  rewrite (mapOver_at _ _ _ E).
  destruct (fromSource info) eqn:F; simpl; [|now split].
  assert ((o - offset info >=? length info) = false) as ->
      by (rewrite Z.geb_leb; apply Z.leb_gt; lia).
  destruct (contiguous_elem _ _ _ _ Hc E) as (_ & _ & _ & Hr).
  destruct (Hr F) as [r ->]. split; discriminate.
Qed.

Lemma mappedString_offsets_covered_witness :
  exists info,
    elemAt (segments "abcdef" [rangePiece 2 5; Literal "-X-"; rangePiece 0 2])
           (glb (segments "abcdef"
                   [rangePiece 2 5; Literal "-X-"; rangePiece 0 2])
                4 compareOffset) = Some info /\
    offset info <= 4 < offset info + length info /\
    (map (mappedString (inl "abcdef")
            [rangePiece 2 5; Literal "-X-"; rangePiece 0 2]) 4 = Ret None <->
     fromSource info = false).
Proof.
  apply mappedString_offsets_covered. vm_compute.
  split; [discriminate|reflexivity].
Defined.

(** ** Concatenation of any number of elements *)

Lemma cumulativeOffsets_length : forall strings currentOffset,
  arrayLength (cumulativeOffsets currentOffset strings) = arrayLength strings.
Proof.
  induction strings as [|s rest IH]; intros currentOffset; [reflexivity|].
  simpl cumulativeOffsets. now rewrite !arrayLength_cons, IH.
Qed.

(** The table [offsets] holds the end of each element. *)
Lemma cumulativeOffsets_step : forall strings currentOffset k next e,
  elemAt (cumulativeOffsets currentOffset strings) k = Some e ->
  elemAt strings (k + 1) = Some next ->
  elemAt (cumulativeOffsets currentOffset strings) (k + 1)
  = Some (e + strlen (value next)).
Proof.
  induction strings as [|s rest IH]; intros currentOffset k next e Ee En.
  - apply elemAt_bounds in En. unfold arrayLength in En. simpl in En. lia.
  - simpl cumulativeOffsets in Ee |- *.
    pose proof (elemAt_bounds _ _ _ Ee) as Bk.
    rewrite elemAt_cons_succ in En by lia.
    rewrite elemAt_cons_succ by lia.
    destruct (elemAt_cons_inv _ _ _ _ Ee) as [[-> ->]|[Hk Ee']].
    + destruct rest as [|second rest]; [discriminate|].
      rewrite elemAt_cons_0 in En. injection En as <-. reflexivity.
    + replace k with (k - 1 + 1) in En |- * by lia.
      now apply IH.
Qed.

Lemma cumulativeOffsets_ordered : forall strings currentOffset j k a b,
  elemAt (cumulativeOffsets currentOffset strings) j = Some a ->
  elemAt (cumulativeOffsets currentOffset strings) k = Some b ->
  j <= k ->
  currentOffset <= a /\ a <= b /\
  b <= currentOffset + strlen (join (List.map value strings)).
Proof.
  induction strings as [|s rest IH]; intros currentOffset j k a b Ea Eb Hjk.
  - apply elemAt_bounds in Ea. unfold arrayLength in Ea. simpl in Ea. lia.
  - simpl cumulativeOffsets in Ea, Eb. simpl List.map.
    rewrite join_cons, strlen_append.
    pose proof (strlen_nonneg (value s)) as Hs.
    pose proof (strlen_nonneg (join (List.map value rest))) as Hr.
    destruct (elemAt_cons_inv _ _ _ _ Eb) as [[-> ->]|[Hk Eb']].
    + destruct (elemAt_cons_inv _ _ _ _ Ea) as [[_ ->]|[Hj _]]; lia.
    + destruct (elemAt_cons_inv _ _ _ _ Ea) as [[-> ->]|[Hj Ea']].
      * destruct (IH _ _ _ _ _ Eb' Eb' (Z.le_refl _)) as (A & _ & C). lia.
      * destruct (IH _ (j - 1) (k - 1) _ _ Ea' Eb' ltac:(lia)) as (A & B & C).
        lia.
Qed.

Lemma mappedConcat_fields (first : MappedString) (rest : list MappedString) :
  mappedConcat (first :: rest) =
  Ret {| value := join (List.map value (first :: rest));
         originalString := originalString first;
         map := routed (first :: rest) (cumulativeOffsets 0 (first :: rest))
                       (strlen (join (List.map value (first :: rest)))) map;
         mapClosest :=
           routed (first :: rest) (cumulativeOffsets 0 (first :: rest))
                  (strlen (join (List.map value (first :: rest))))
                  mapClosest |}.
Proof. reflexivity. Qed.

(** Where [routed] sends the offsets of an element. *)
Lemma routed_first strings select (o : Z) (first : MappedString) :
  elemAt strings 0 = Some first -> 0 <= o < strlen (value first) ->
  routed strings (cumulativeOffsets 0 strings)
         (strlen (join (List.map value strings))) select o
  = Throw TypeError.
Proof.
  intros E0 Ho. unfold routed.
  destruct (elemAt_in_range (cumulativeOffsets 0 strings) 0) as [e0 Ee].
  { rewrite cumulativeOffsets_length. apply elemAt_bounds in E0. lia. }
  assert (e0 = strlen (value first)) as ->.
  { destruct strings as [|s rest]; [discriminate|].
    rewrite elemAt_cons_0 in E0. injection E0 as ->.
    simpl in Ee. rewrite elemAt_cons_0 in Ee. now injection Ee as <-. }
  destruct (cumulativeOffsets_ordered _ _ _ _ _ _ Ee Ee (Z.le_refl _))
    as (_ & _ & Hend).
  assert ((o <? 0) = false) as -> by (apply Z.ltb_ge; lia).
  assert ((o >=? strlen (join (List.map value strings))) = false) as ->
      by (rewrite Z.geb_leb; apply Z.leb_gt; lia).
  simpl orb. cbv iota.
  destruct (glb_spec defaultCompare o (cumulativeOffsets 0 strings))
    as [[-> _]|(x & Ex & C & _)]; [reflexivity|].
  pose proof (elemAt_bounds _ _ _ Ex) as B.
  destruct (cumulativeOffsets_ordered _ _ _ _ _ _ Ee Ex ltac:(lia))
    as (_ & Hle & _).
  unfold defaultCompare in C. lia.
Qed.

Lemma routed_later strings select (o k e : Z) (s next : MappedString) :
  elemAt strings k = Some s -> elemAt strings (k + 1) = Some next ->
  elemAt (cumulativeOffsets 0 strings) k = Some e ->
  e <= o < e + strlen (value next) ->
  routed strings (cumulativeOffsets 0 strings)
         (strlen (join (List.map value strings))) select o
  = select s (o - e).
Proof.
  intros Es En Ee Ho. unfold routed.
  pose proof (cumulativeOffsets_step _ _ _ _ _ Ee En) as Ee'.
  destruct (cumulativeOffsets_ordered _ _ _ _ _ _ Ee Ee' ltac:(lia))
    as (H0 & _ & Hend).
  assert ((o <? 0) = false) as -> by (apply Z.ltb_ge; lia).
  assert ((o >=? strlen (join (List.map value strings))) = false) as ->
      by (rewrite Z.geb_leb; apply Z.leb_gt; lia).
  simpl orb. cbv iota.
  assert (glb (cumulativeOffsets 0 strings) o defaultCompare = k) as ->.
  { assert (0 <= defaultCompare o e) as C by (unfold defaultCompare; lia).
    pose proof (glb_greatest defaultCompare o _ k e Ee C) as G.
    pose proof (elemAt_bounds _ _ _ Ee) as Bk.
    destruct (glb_found defaultCompare o (cumulativeOffsets 0 strings)
                ltac:(lia)) as (x & Ex & Cx).
    unfold defaultCompare in Cx.
    destruct (Z_le_gt_dec (glb (cumulativeOffsets 0 strings) o defaultCompare)
                          k) as [Hle|Hgt]; [lia|].
    destruct (cumulativeOffsets_ordered _ _ _ _ _ _ Ee' Ex ltac:(lia))
      as (_ & Hle & _).
    lia. }
  now rewrite Es, Ee.
Qed.

(** X8. [mappedConcat] of any list.  The value is the values joined and
    [originalString] is that of the first element.  An offset inside
    the first element makes [map] and [mapClosest] throw [TypeError].
    An offset inside a later element, that starts at the end [e] of the
    element before it, is handed to that element before it, at [o - e]. *)
Theorem mappedConcat_routing (strings : list MappedString)
        (C : MappedString) :
  mappedConcat strings = Ret C ->
  value C = join (List.map value strings) /\
  (forall first, elemAt strings 0 = Some first ->
                 originalString C = originalString first) /\
  (forall first o,
      elemAt strings 0 = Some first -> 0 <= o < strlen (value first) ->
      map C o = Throw TypeError /\ mapClosest C o = Throw TypeError) /\
  (forall k s next e o,
      elemAt strings k = Some s -> elemAt strings (k + 1) = Some next ->
      elemAt (cumulativeOffsets 0 strings) k = Some e ->
      e <= o < e + strlen (value next) ->
      map C o = map s (o - e) /\ mapClosest C o = mapClosest s (o - e)).
Proof.
  destruct strings as [|head rest]; [discriminate|].
  rewrite mappedConcat_fields. intros [= <-]. cbn [value originalString].
  split; [reflexivity|]. split.
  { intros first E. rewrite elemAt_cons_0 in E. now injection E as <-. }
  cbn [map mapClosest]. split.
  - intros first o E Ho.
    split; exact (routed_first (head :: rest) _ o first E Ho).
  - intros k s next e o Es En Ee Ho.
    split; exact (routed_later (head :: rest) _ o k e s next Es En Ee Ho).
Qed.

Lemma mappedConcat_routing_witness :
  routed [asMappedString "ab"; asMappedString "cd"; asMappedString "ef"]
         (cumulativeOffsets
            0 [asMappedString "ab"; asMappedString "cd"; asMappedString "ef"])
         (strlen "abcdef") map 5
  = map (asMappedString "cd") (5 - 4).
Proof.
  pose proof (mappedConcat_routing
                [asMappedString "ab"; asMappedString "cd";
                 asMappedString "ef"]
                _ eq_refl) as H.
  destruct H as (H1 & H2 & H3 & H).
  refine (proj1 (H 1 (asMappedString "cd") (asMappedString "ef") 4 5
                   eq_refl eq_refl eq_refl _)).
  vm_compute. split; [discriminate|reflexivity].
Defined.

(** ** Line numbers after the first source-derived character *)

(** X9. Over a string source, once a source-derived segment starts at
    or before the offset, [mapClosest] is defined and
    [mappedLineNumbers] returns the line and column of its result
    instead of throwing; when the first piece is a range this is so for
    every offset from 0. *)
Theorem mappedLineNumbers_returns_after_source (source : string)
        (pieces : list StringChunk) (o : Z) :
  (forall j info,
      elemAt (segments source pieces) j = Some info ->
      fromSource info = true -> offset info <= o ->
      exists n,
        mapClosest (mappedString (inl source) pieces) o = Ret (Some n) /\
        mappedLineNumbers (mappedString (inl source) pieces) o
        = Ret (lineNumbers source n)) /\
  (forall r rest,
      pieces = FromRange r :: rest -> 0 <= o ->
      exists n,
        mapClosest (mappedString (inl source) pieces) o = Ret (Some n) /\
        mappedLineNumbers (mappedString (inl source) pieces) o
        = Ret (lineNumbers source n)).
Proof.
  assert (forall j info,
             elemAt (segments source pieces) j = Some info ->
             fromSource info = true -> offset info <= o ->
             exists n,
               mapClosest (mappedString (inl source) pieces) o
               = Ret (Some n) /\
               mappedLineNumbers (mappedString (inl source) pieces) o
               = Ret (lineNumbers source n)) as Hgen.
  { intros j info E F Hle. unfold mappedLineNumbers, mappedString.
    rewrite mappedStringOfText_fields. cbn [mapClosest originalString].
    pose proof (segments_contiguous source pieces) as Hc.
    destruct (mapClosestOver_returns _ Hc o) as [[n|] Hv].
    - exists n. rewrite Hv. now split.
    - pose proof (proj1 (mapClosestOver_unmapped_iff _ Hc o) Hv j info E Hle).
      congruence. }
  split; [exact Hgen|].
  intros r rest -> Ho.
  apply (Hgen 0 {| fromSource := true;
                   length := strlen (substring source (start r) (end_ r));
                   offset := 0;
                   range := Some {| start := start r; end_ := end_ r |} |}).
  - unfold segments. rewrite resolvePieces_cons. reflexivity.
  - reflexivity.
  - exact Ho.
Qed.

Lemma mappedLineNumbers_returns_after_source_witness :
  exists n,
    mapClosest (mappedString (inl "abc") [rangePiece 1 3; Literal "!"]) 7
    = Ret (Some n) /\
    mappedLineNumbers (mappedString (inl "abc") [rangePiece 1 3; Literal "!"])
                      7
    = Ret (lineNumbers "abc" n).
Proof.
  apply (proj2 (mappedLineNumbers_returns_after_source
                  "abc" [rangePiece 1 3; Literal "!"] 7)
               {| start := 1; end_ := 3 |} [Literal "!"]).
  - reflexivity.
  - lia.
Defined.

(** ** The identity wrapper as a source *)

(** X10. Building over [asMappedString s] is building over [s]: the
    same value, the same [originalString] and, at every offset, the same
    [map] and [mapClosest]. *)
Theorem asMappedString_source_neutral (s : string)
        (pieces : list StringChunk) :
  value (mappedString (inr (asMappedString s)) pieces)
  = value (mappedString (inl s) pieces) /\
  originalString (mappedString (inr (asMappedString s)) pieces)
  = originalString (mappedString (inl s) pieces) /\
  forall o : Z,
    map (mappedString (inr (asMappedString s)) pieces) o
    = map (mappedString (inl s) pieces) o /\
    mapClosest (mappedString (inr (asMappedString s)) pieces) o
    = mapClosest (mappedString (inl s) pieces) o.
Proof.
  unfold mappedString.
  cbn [value originalString map mapClosest asMappedString].
  split; [reflexivity|].
  split; [now rewrite mappedStringOfText_fields|].
  intros o. unfold compose, bind. split.
  - now destruct (map (mappedStringOfText s pieces) o) as [[v|]|e].
  - now destruct (mapClosest (mappedStringOfText s pieces) o) as [[v|]|e].
Qed.

(** ** The client script of the watcher *)

Lemma repeat_zero_split (a b : nat) :
  repeat Byte.x00 (a + b) = (repeat Byte.x00 a ++ repeat Byte.x00 b)%list.
Proof. apply repeat_app. Qed.

Lemma set_at_start (file : list Byte.byte) (room : nat) :
  Watch.set (repeat Byte.x00 (List.length file + room)) file 0
  = Some (file ++ repeat Byte.x00 room)%list.
Proof.
  unfold Watch.set, arrayLength.
  rewrite repeat_length.
  assert ((Z.of_nat (List.length file + room)
           <? 0 + Z.of_nat (List.length file)) = false) as ->
      by (apply Z.ltb_ge; lia).
  simpl orb. cbv iota. simpl firstn.
  replace (Z.to_nat (0 + Z.of_nat (List.length file)))
    with (List.length file) by lia.
  rewrite repeat_zero_split, skipn_app, repeat_length, Nat.sub_diag.
  rewrite <- (repeat_length Byte.x00 (List.length file)) at 1.
  now rewrite skipn_all.
Qed.

Lemma set_at_end (file script : list Byte.byte) :
  Watch.set (file ++ repeat Byte.x00 (List.length script)) script
            (arrayLength file)
  = Some (file ++ script)%list.
Proof.
  unfold Watch.set, arrayLength.
  rewrite length_app, repeat_length.
  assert ((Z.of_nat (List.length file) <? 0) = false) as ->
      by (apply Z.ltb_ge; lia).
  assert ((Z.of_nat (List.length file + List.length script)
           <? Z.of_nat (List.length file) + Z.of_nat (List.length script))
          = false) as -> by (apply Z.ltb_ge; lia).
  simpl orb. cbv iota. rewrite Nat2Z.id.
  rewrite firstn_app, firstn_all, Nat.sub_diag. simpl firstn.
  rewrite skipn_all2 by (rewrite length_app, repeat_length; lia).
  now rewrite !app_nil_r.
Qed.

(** X11. [injectClient] never fails.  When the options ask to watch it
    returns the bytes of the file, unchanged, followed by the bytes of
    the client script, and nothing else; otherwise the file as it is. *)
Theorem injectClient_appends_script (encodedClientScript : Z -> list Byte.byte)
        (watch : bool) (port : Z) (file : list Byte.byte) :
  Watch.injectClient encodedClientScript watch port file
  = Some (if watch then (file ++ encodedClientScript port)%list else file).
Proof.
  unfold Watch.injectClient. destruct watch; [|reflexivity].
  unfold Watch.newUint8Array, arrayLength.
  replace (Z.to_nat (Z.of_nat (List.length file)
                     + Z.of_nat (List.length (encodedClientScript port))))
    with (List.length file + List.length (encodedClientScript port))%nat
    by lia.
  rewrite set_at_start. apply set_at_end.
Qed.

(** ** The closest map as the forward map at an earlier offset *)

Lemma mapClosestLoop_stops (table : list OffsetInfo) (o firstIx : Z) :
  forall (n : nat) (v : Z),
    mapClosestLoop table o firstIx None n = Ret (Some v) ->
    exists j info r,
      0 <= j < Z.of_nat n /\
      elemAt table j = Some info /\ fromSource info = true /\
      range info = Some r /\
      (forall k other, j < k < Z.of_nat n -> elemAt table k = Some other ->
                       fromSource other = false) /\
      ((j = firstIx /\ o - offset info < length info /\
        v = start r + (o - offset info))
       \/ ((j <> firstIx \/ length info <= o - offset info) /\
           v = end_ r - 1)).
Proof.
  induction n as [|n IH]; intros v H; [discriminate|].
  simpl mapClosestLoop in H.
  destruct (elemAt table (Z.of_nat n)) as [info|] eqn:E; [|discriminate].
  destruct (fromSource info) eqn:F; simpl in H.
  - destruct (range info) as [r|] eqn:R; [|discriminate].
    exists (Z.of_nat n), info, r.
    split; [lia|]. split; [assumption|]. split; [assumption|].
    split; [assumption|]. split; [intros; lia|].
    destruct (Z.of_nat n =? firstIx) eqn:J.
    + apply Z.eqb_eq in J.
      destruct (o - offset info <? length info) eqn:L.
      * apply Z.ltb_lt in L. injection H as <-. left. auto.
      * apply Z.ltb_ge in L. injection H as <-. right. auto.
    + apply Z.eqb_neq in J. injection H as <-. right. auto.
  - destruct (IH v H) as (j & info' & r & Hj & E' & F' & R' & Hlit & Hv).
    exists j, info', r.
    split; [lia|]. split; [assumption|]. split; [assumption|].
    split; [assumption|]. split; [|assumption].
    intros k other Hk Ek.
    destruct (Z.eq_dec k (Z.of_nat n)) as [->|Hne]; [congruence|].
    apply (Hlit k other); [lia|assumption].
Qed.

Section ClosestIsForward.

Variable source : string.
Variable pieces : list StringChunk.
Hypothesis pieces_in_bounds : forallb (inBoundsPiece source) pieces = true.

(** A source-derived segment of in-bounds pieces is not empty and ends
    with the last character of its range. *)
Lemma in_bounds_segment (j : Z) (info : OffsetInfo) (r : Range) :
  elemAt (segments source pieces) j = Some info ->
  fromSource info = true -> range info = Some r ->
  0 < length info /\ end_ r = start r + length info.
Proof.
  intros E F R.
  destruct (segment_of_range_piece source pieces info r
              (elemAt_In _ _ _ E) F R) as [Hp Hlen].
  pose proof (forallb_In _ _ _ pieces_in_bounds Hp) as Hr. simpl in Hr.
  apply andb_true_iff in Hr as [Hr H2]. apply andb_true_iff in Hr as [H0 H1].
  apply Z.leb_le in H0. apply Z.ltb_lt in H1. apply Z.leb_le in H2.
  rewrite strlen_substring_in_bounds in Hlen by lia. lia.
Qed.

(** The search at the last offset of a segment that is not empty finds
    that segment. *)
Lemma glb_at_last_offset (j : Z) (info : OffsetInfo) (o' : Z) :
  elemAt (segments source pieces) j = Some info ->
  offset info <= o' < offset info + length info ->
  glb (segments source pieces) o' compareOffset = j.
Proof.
  intros E Ho.
  pose proof (segments_contiguous source pieces) as Hc.
  assert (0 <= compareOffset o' info) as C by (unfold compareOffset; lia).
  pose proof (glb_greatest compareOffset o' _ j info E C) as G.
  pose proof (elemAt_bounds _ _ _ E) as Bj.
  destruct (glb_found compareOffset o' (segments source pieces) ltac:(lia))
    as (x & Ex & Cx).
  unfold compareOffset in Cx.
  destruct (Z_le_gt_dec (glb (segments source pieces) o' compareOffset) j)
    as [Hle|Hgt]; [lia|].
  pose proof (elemAt_bounds _ _ _ Ex) as Bx.
  destruct (elemAt_in_range (segments source pieces) (j + 1) ltac:(lia))
    as [next En].
  pose proof (contiguous_next _ _ _ _ _ Hc E En) as Hnext.
  pose proof (contiguous_sorted _ _ (j + 1) _ next x Hc En Ex ltac:(lia)).
  lia.
Qed.

Lemma mapClosest_is_forward (o v : Z) :
  mapClosestOver (segments source pieces) o = Ret (Some v) ->
  exists o',
    o' <= o /\ mapOver (segments source pieces) o' = Ret (Some v) /\
    forall o'', o' < o'' <= o ->
                mapOver (segments source pieces) o'' = Ret None.
Proof.
  pose proof (segments_contiguous source pieces) as Hc.
  set (table := segments source pieces) in *.
  unfold mapClosestOver.
  destruct ((arrayLength table =? 0) || (o <? 0)); [discriminate|].
  intros H.
  destruct (mapClosestLoop_stops _ _ _ _ _ H)
    as (j & info & r & Hj & E & F & R & Hlit & Hv).
  pose proof (glb_range compareOffset o table) as G.
  destruct (in_bounds_segment j info r E F R) as [Hpos Hend].
  assert (0 <= glb table o compareOffset) as Hanchor by lia.
  destruct (glb_found compareOffset o table Hanchor) as (x & Ex & Cx).
  unfold compareOffset in Cx.
  destruct Hv as [(Hjf & Hlt & ->)|[Hpast ->]].
  - exists o. split; [lia|]. split; [|intros; lia].
    rewrite Hjf in E. rewrite (mapOver_at _ _ _ E), F, R. simpl.
    assert ((o - offset info >=? length info) = false) as ->
        by (rewrite Z.geb_leb; apply Z.leb_gt; lia).
    reflexivity.
  - pose proof (contiguous_sorted _ _ j _ info x Hc E Ex ltac:(lia)) as Hjx.
    assert (offset info + length info <= o) as Hbefore.
    { destruct (Z.eq_dec j (glb table o compareOffset)) as [Heq|Hne].
      - rewrite <- Heq, E in Ex. injection Ex as <-.
        destruct Hpast as [Hpast|Hpast]; [contradiction|lia].
      - destruct (elemAt_in_range table (j + 1) ltac:(lia)) as [next En].
        pose proof (contiguous_next _ _ _ _ _ Hc E En) as Hnext.
        pose proof (contiguous_sorted _ _ (j + 1) _ next x Hc En Ex
                      ltac:(lia)).
        lia. }
    exists (offset info + length info - 1). split; [lia|]. split.
    + assert (glb table (offset info + length info - 1) compareOffset = j)
        as Hglb by (apply (glb_at_last_offset j info); [assumption|lia]).
      rewrite <- Hglb in E. rewrite (mapOver_at _ _ _ E), F, R. simpl.
      assert ((offset info + length info - 1 - offset info >=? length info)
              = false) as ->
          by (rewrite Z.geb_leb; apply Z.leb_gt; lia).
      do 2 f_equal. lia.
    + intros o'' Ho''.
      assert (0 <= compareOffset o'' info) as C
          by (unfold compareOffset; lia).
      pose proof (glb_greatest compareOffset o'' table j info E C) as Gj.
      destruct (glb_found compareOffset o'' table ltac:(lia))
        as (y & Ey & Cy).
      unfold compareOffset in Cy.
      assert (0 <= compareOffset o y) as Cy'
          by (unfold compareOffset; lia).
      pose proof (glb_greatest compareOffset o table _ y Ey Cy') as Gy.
      rewrite (mapOver_at _ _ _ Ey).
      destruct (Z.eq_dec (glb table o'' compareOffset) j) as [Heq|Hne].
      * rewrite Heq, E in Ey. injection Ey as <-. rewrite F. simpl.
        assert ((o'' - offset info >=? length info) = true) as ->
            by (rewrite Z.geb_leb; apply Z.leb_le; lia).
        reflexivity.
      * rewrite (Hlit (glb table o'' compareOffset) y ltac:(lia) Ey).
        reflexivity.
Qed.

End ClosestIsForward.

(** X12. Over a string source whose range pieces are not empty and lie
    within the source, a defined [mapClosest o] is [map] at the greatest
    offset up to [o] where [map] is defined, the closest smaller valid
    result; and, for any pieces, where [mapClosest o] is "unmapped",
    [map] is "unmapped" at every offset up to [o]. *)
Theorem mapClosest_is_closest_map (source : string)
        (pieces : list StringChunk) (o : Z) :
  (forallb (inBoundsPiece source) pieces = true ->
   forall v,
     mapClosest (mappedString (inl source) pieces) o = Ret (Some v) ->
     exists o',
       o' <= o /\
       map (mappedString (inl source) pieces) o' = Ret (Some v) /\
       forall o'', o' < o'' <= o ->
                   map (mappedString (inl source) pieces) o'' = Ret None) /\
  (mapClosest (mappedString (inl source) pieces) o = Ret None ->
   forall o'', o'' <= o ->
               map (mappedString (inl source) pieces) o'' = Ret None).
Proof.
  unfold mappedString. rewrite mappedStringOfText_fields.
  cbn [map mapClosest].
  pose proof (segments_contiguous source pieces) as Hc.
  split.
  - intros Hb v. now apply mapClosest_is_forward.
  - intros H o'' Ho''.
    destruct (mapOver_returns _ o'' Hc) as [[v|] Hv]; [|assumption].
    destruct (mapOver_defined _ _ _ Hv) as (info & r & E & F & _ & Hin & _).
    pose proof (proj1 (mapClosestOver_unmapped_iff _ Hc o) H _ info E
                  ltac:(lia)).
    congruence.
Qed.

Lemma mapClosest_is_closest_map_witness :
  exists o',
    o' <= 4 /\
    map (mappedString (inl "abcdef")
           [rangePiece 2 5; Literal "-X-"; rangePiece 0 2]) o'
    = Ret (Some 4) /\
    forall o'', o' < o'' <= 4 ->
                map (mappedString (inl "abcdef")
                       [rangePiece 2 5; Literal "-X-"; rangePiece 0 2]) o''
                = Ret None.
Proof.
  apply (proj1 (mapClosest_is_closest_map
                  "abcdef" [rangePiece 2 5; Literal "-X-"; rangePiece 0 2] 4));
    reflexivity.
Defined.
